(** * doom-wled: the raycaster, its controller state and the WLED frame streamer

    A shallow embedding of [wled_game.py], of the index mapper and the
    pattern display of [calibrate_wled.py], and of the index loops of
    [test_wled_mapping.py].

    Conventions of the embedding:
    - Python [int] is [Z]; Python lists are [list]; [None] entries of a list
      are [option] values.
    - Python [float] / [np.float64] values are modelled by exact real numbers
      [R] (no rounding, no NaN, no infinities), except in [Module Binary64],
      which has [cast_ray] and the ray angle formula of [render] on IEEE-754
      binary64 numbers; there [np.cos], [np.sin] and [** 2], whose rounding
      the libraries do not fix, are parameters.
    - An operation that can raise [IndexError] returns [option]; the
      transmission, which can raise arbitrary exceptions, returns [outcome]. *)

From Stdlib Require Import Floats.
From Stdlib Require Import ZArith Reals Lra Lia.
From Stdlib Require Import Ascii String.
From stdpp Require Import base option list.

Local Open Scope Z_scope.

(** ** Python primitives used by the program *)

Module Py.

(** Normalisation of a list index: [l[i]] accepts [-len <= i < len],
    negative indices counting from the end; anything else raises
    [IndexError] (here [None]). *)
Definition index (len : nat) (i : Z) : option nat :=
  if (0 <=? i) && (i <? Z.of_nat len) then Some (Z.to_nat i)
  else if (- Z.of_nat len <=? i) && (i <? 0) then Some (Z.to_nat (i + Z.of_nat len))
  else None.

(** [l[i]] *)
Definition getitem {A} (l : list A) (i : Z) : option A :=
  n ← index (length l) i; l !! n.

(** [l[i] = v] *)
Definition setitem {A} (l : list A) (i : Z) (v : A) : option (list A) :=
  n ← index (length l) i; Some (<[n:=v]> l).

(** [range(n)] *)
Definition range (n : Z) : list Z := Z.of_nat <$> seq 0 (Z.to_nat n).

(** [for x in xs: body], the loop state threaded through the body; an
    exception raised by the body leaves the loop. *)
Fixpoint for_each {S} (xs : list Z) (body : Z → S → option S) (s : S) : option S :=
  match xs with
  | [] => Some s
  | x :: xs' => body x s ≫= for_each xs' body
  end.

(** [int(r)] on a float: truncation toward zero. *)
Definition int (r : R) : Z := if Rle_dec 0 r then Zfloor r else Zceil r.

(** [range(a, b)] *)
Definition range_from (a b : Z) : list Z :=
  (λ k, a + Z.of_nat k) <$> seq 0 (Z.to_nat (b - a)).

End Py.

(** ** Configuration constants (identical in both scripts) *)

Definition MATRIX_WIDTH : Z := 16.
Definition MATRIX_HEIGHT : Z := 8.
Definition GAME_WIDTH : Z := 320.
Definition GAME_HEIGHT : Z := 200.

(** ** calibrate_wled.py *)

Module Calibrate.

(** [rgb_to_wled_index(x, y)]: the manual two-panel serpentine mapper. *)
Definition rgb_to_wled_index (x y : Z) : Z :=
  if x <? 8 then
    if y `mod` 2 =? 0 then y * 8 + x
    else y * 8 + (7 - x)
  else
    let px := x - 8 in
    let py_from_bottom := 7 - y in
    let local_index :=
      if py_from_bottom `mod` 2 =? 0 then py_from_bottom * 8 + (7 - px)
      else py_from_bottom * 8 + px in
    64 + local_index.

End Calibrate.

(** ** wled_game.py, class WLEDStreamer *)

(** One LED colour, the JSON list [[r, g, b]]. *)
Abbreviation led := (list Z).

(** The small frame buffer: rows of pixels, each pixel its channel values
    ([downscale_surface] returns a [uint8] array of shape (8, 16, 3), so
    [int(pixel[c])] is the channel value itself). *)
Abbreviation frame := (list (list (list Z))).

(** Instances of [Exception], which [except Exception] catches. *)
Inductive exn :=
| Timeout
| ConnectionError
| IndexError
| OtherException (code : Z).

(** Result of an expression that may raise. *)
Inductive outcome (A : Type) :=
| Return (a : A)
| Raise (e : exn).
Arguments Return {A} a.
Arguments Raise {A} e.

Record segment := { seg_id : Z; seg_i : list (option led) }.
Record payload := { on : bool; bri : Z; seg : list segment }.
Record response := { status_code : Z }.

(** The fields of a streamer that [send_frame_to_wled] reads or writes. *)
Record streamer := {
  frame_count : Z;
  start_time : R;
  last_fps_print : R
}.

(** The three readings of [time.time()] inside [send_frame_to_wled]. *)
Record clock := { t_check : R; t_elapsed : R; t_stamp : R }.

Module WLEDStreamer.

(** [rgb_to_wled_index(self, x, y)]: native 2D mode, row-major. *)
Definition rgb_to_wled_index (x y : Z) : Z := y * MATRIX_WIDTH + x.

Section Send.
(** [send_frame_to_wled] reaches the mapper as [self.rgb_to_wled_index];
    the method bound at the call is a parameter here. *)
Variable mapper : Z → Z → Z.

(** [frame_data[y, x]] *)
Definition frame_getitem (frame_data : frame) (y x : Z) : option (list Z) :=
  row ← Py.getitem frame_data y; Py.getitem row x.

(** [[int(pixel[0]), int(pixel[1]), int(pixel[2])]] *)
Definition rgb_of (pixel : list Z) : option led :=
  r ← Py.getitem pixel 0; g ← Py.getitem pixel 1; b ← Py.getitem pixel 2;
  Some [r; g; b].

(** Body of the inner loop. *)
Definition store_pixel (frame_data : frame) (y x : Z)
    (ordered_leds : list (option led)) : option (list (option led)) :=
  pixel ← frame_getitem frame_data y x;
  let idx := mapper x y in
  c ← rgb_of pixel;
  Py.setitem ordered_leds idx (Some c).

(** The two nested loops over [ordered_leds = [None] * (W * H)]. *)
Definition fill_ordered_leds (frame_data : frame) : option (list (option led)) :=
  Py.for_each (Py.range MATRIX_HEIGHT)
    (λ y, Py.for_each (Py.range MATRIX_WIDTH) (λ x, store_pixel frame_data y x))
    (replicate (Z.to_nat (MATRIX_WIDTH * MATRIX_HEIGHT)) None).

Definition make_payload (ordered_leds : list (option led)) : payload :=
  {| on := true; bri := 255; seg := [ {| seg_id := 0; seg_i := ordered_leds |} ] |}.

(** The [try] block: the streamer after it, the FPS line it printed (frame
    count and rate) if any, and the value returned or exception raised. *)
Definition send_body (post : payload → outcome response) (clk : clock)
    (self : streamer) (frame_data : frame)
    : streamer * option (Z * R) * outcome bool :=
  match fill_ordered_leds frame_data with
  | None => (self, None, Raise IndexError)
  | Some ordered_leds =>
    match post (make_payload ordered_leds) with
    | Raise e => (self, None, Raise e)
    | Return resp =>
      let count := frame_count self + 1 in
      let result := Return (status_code resp =? 200) in
      if Rle_dec 2 (t_check clk - last_fps_print self) then
        let elapsed := (t_elapsed clk - start_time self)%R in
        let fps := if Rlt_dec 0 elapsed then (IZR count / elapsed)%R else 0%R in
        ({| frame_count := count; start_time := start_time self;
            last_fps_print := t_stamp clk |}, Some (count, fps), result)
      else
        ({| frame_count := count; start_time := start_time self;
            last_fps_print := last_fps_print self |}, None, result)
    end
  end.

(** [send_frame_to_wled(self, frame_data)]: the [try] block under
    [except Exception: return False]. *)
Definition send_frame_to_wled (post : payload → outcome response) (clk : clock)
    (self : streamer) (frame_data : frame)
    : streamer * option (Z * R) * outcome bool :=
  match send_body post clk self frame_data with
  | (self', out, Return b) => (self', out, Return b)
  | (self', out, Raise _) => (self', out, Return false)
  end.

End Send.

End WLEDStreamer.

(** ** wled_game.py, class RaycastGame *)

Module RaycastGame.

(** The keys that [handle_input] reads from [pygame.key.get_pressed()]. *)
Record keys := {
  K_LEFT : bool; K_RIGHT : bool; K_UP : bool; K_DOWN : bool;
  K_a : bool; K_d : bool; K_SPACE : bool
}.

(** The fields that change after [__init__]. An impact is the two-element
    list [[impact_x, timer]]. *)
Record game := {
  player_x : R;
  player_y : R;
  player_angle : R;
  shooting : bool;
  muzzle_flash_timer : Z;
  shot_cooldown : Z;
  bullet_impacts : list (Z * Z)
}.

(** [self.map], [self.move_speed] and [self.rot_speed] are assigned in
    [__init__] only. *)
Definition map : list (list Z) :=
  [ [1;1;1;1;1;1;1;1];
    [1;0;0;0;0;0;0;1];
    [1;0;1;0;0;1;0;1];
    [1;0;0;0;0;0;0;1];
    [1;0;1;0;0;1;0;1];
    [1;0;0;0;0;0;0;1];
    [1;0;0;1;1;0;0;1];
    [1;1;1;1;1;1;1;1] ].

Definition move_speed : R := 0.05.
Definition rot_speed : R := 0.05.

(** The state [__init__] builds. *)
Definition init : game :=
  {| player_x := 3.5; player_y := 3.5; player_angle := 0;
     shooting := false; muzzle_flash_timer := 0; shot_cooldown := 0;
     bullet_impacts := [] |}.

Definition set_angle (self : game) (a : R) : game :=
  {| player_x := player_x self; player_y := player_y self; player_angle := a;
     shooting := shooting self; muzzle_flash_timer := muzzle_flash_timer self;
     shot_cooldown := shot_cooldown self; bullet_impacts := bullet_impacts self |}.

Definition set_position (self : game) (x y : R) : game :=
  {| player_x := x; player_y := y; player_angle := player_angle self;
     shooting := shooting self; muzzle_flash_timer := muzzle_flash_timer self;
     shot_cooldown := shot_cooldown self; bullet_impacts := bullet_impacts self |}.

(** [self.map[map_y][map_x]] *)
Definition map_cell (map_x map_y : Z) : option Z :=
  row ← Py.getitem map map_y; Py.getitem row map_x.

(** The test of the marching loop, its three conjuncts evaluated left to
    right: [0 <= map_y < len(self.map) and 0 <= map_x < len(self.map[0])
    and self.map[map_y][map_x] == 1]. *)
Definition hits_wall (map_x map_y : Z) : option bool :=
  if (0 <=? map_y) && (map_y <? Z.of_nat (length map)) then
    row0 ← Py.getitem map 0;
    if (0 <=? map_x) && (map_x <? Z.of_nat (length row0)) then
      cell ← map_cell map_x map_y;
      Some (cell =? 1)
    else Some false
  else Some false.

(** [for _ in range(200)] of [cast_ray], with the iterations left. *)
Fixpoint cast_ray_loop (steps : nat) (self : game) (dx dy ray_x ray_y : R)
    : option (R * Z) :=
  match steps with
  | O => Some (100%R, 0)
  | S steps' =>
    let ray_x := (ray_x + dx)%R in
    let ray_y := (ray_y + dy)%R in
    let map_x := Py.int ray_x in
    let map_y := Py.int ray_y in
    hit ← hits_wall map_x map_y;
    if hit : bool then
      let dist := sqrt ((ray_x - player_x self) ^ 2 + (ray_y - player_y self) ^ 2)%R in
      Some (dist, (map_x + map_y) `mod` 2)
    else cast_ray_loop steps' self dx dy ray_x ray_y
  end.

(** [cast_ray(self, angle)] *)
Definition cast_ray (self : game) (angle : R) : option (R * Z) :=
  let ray_x := player_x self in
  let ray_y := player_y self in
  let dx := (cos angle * 0.02)%R in
  let dy := (sin angle * 0.02)%R in
  cast_ray_loop 200 self dx dy ray_x ray_y.

(** [render]: the field of view and the angle of the ray of column [i]. *)
Definition fov : R := (PI / 3)%R.

Definition ray_angle (self : game) (i : Z) : R :=
  (player_angle self - fov / 2 + (IZR i / IZR GAME_WIDTH) * fov)%R.

(** [render]: the cast of column [i] followed by the fisheye correction
    [dist *= np.cos(ray_angle - self.player_angle)]. *)
Definition corrected_distance (self : game) (i : Z) : option R :=
  hit ← cast_ray self (ray_angle self i);
  Some (hit.1 * cos (ray_angle self i - player_angle self))%R.

(** [render]: the impacts that pass the guard [if timer > 0]. *)
Definition drawn_impacts (self : game) : list (Z * Z) :=
  filter (λ impact, 0 < impact.2) (bullet_impacts self).

(** The shape shared by the four movement blocks of [handle_input]:
    [if self.map[int(new_y)][int(new_x)] == 0: self.player_x = new_x;
    self.player_y = new_y]. *)
Definition move_to (self : game) (new_x new_y : R) : option game :=
  cell ← map_cell (Py.int new_x) (Py.int new_y);
  Some (if cell =? 0 then set_position self new_x new_y else self).

(** [shoot(self)] *)
Definition shoot (self : game) : option game :=
  let self :=
    {| player_x := player_x self; player_y := player_y self;
       player_angle := player_angle self;
       shooting := true; muzzle_flash_timer := 5; shot_cooldown := 10;
       bullet_impacts := bullet_impacts self |} in
  hit ← cast_ray self (player_angle self);
  let dist := hit.1 in
  if Rlt_dec dist 10 then
    let impact_x := GAME_WIDTH `div` 2 in
    Some {| player_x := player_x self; player_y := player_y self;
            player_angle := player_angle self;
            shooting := shooting self;
            muzzle_flash_timer := muzzle_flash_timer self;
            shot_cooldown := shot_cooldown self;
            bullet_impacts := bullet_impacts self ++ [(impact_x, 10)] |}
  else Some self.

(** [handle_input(self)], the pressed keys given. *)
Definition handle_input (pressed : keys) (self : game) : option game :=
  (* Rotation *)
  let self := if K_LEFT pressed
              then set_angle self (player_angle self - rot_speed)%R else self in
  let self := if K_RIGHT pressed
              then set_angle self (player_angle self + rot_speed)%R else self in
  (* Movement *)
  self ← (if K_UP pressed then
            move_to self (player_x self + cos (player_angle self) * move_speed)%R
                         (player_y self + sin (player_angle self) * move_speed)%R
          else Some self);
  self ← (if K_DOWN pressed then
            move_to self (player_x self - cos (player_angle self) * move_speed)%R
                         (player_y self - sin (player_angle self) * move_speed)%R
          else Some self);
  (* Strafing *)
  self ← (if K_a pressed then
            move_to self
              (player_x self + cos (player_angle self - PI / 2) * move_speed)%R
              (player_y self + sin (player_angle self - PI / 2) * move_speed)%R
          else Some self);
  self ← (if K_d pressed then
            move_to self
              (player_x self + cos (player_angle self + PI / 2) * move_speed)%R
              (player_y self + sin (player_angle self + PI / 2) * move_speed)%R
          else Some self);
  (* Shooting *)
  if K_SPACE pressed && (shot_cooldown self =? 0) then shoot self else Some self.

(** One impact in the loop [for impact in self.bullet_impacts]. *)
Definition age_impact (impact : Z * Z) : Z * Z :=
  if 0 <? impact.2 then (impact.1, impact.2 - 1) else impact.

(** The loop over the impacts followed by the list comprehension
    [[imp for imp in self.bullet_impacts if imp[1] > 0]]. *)
Definition age_impacts (impacts : list (Z * Z)) : list (Z * Z) :=
  filter (λ imp, 0 < imp.2) (age_impact <$> impacts).

(** [update_timers(self)] *)
Definition update_timers (self : game) : game :=
  let flash := if 0 <? muzzle_flash_timer self
               then muzzle_flash_timer self - 1 else muzzle_flash_timer self in
  let cooldown := if 0 <? shot_cooldown self
                  then shot_cooldown self - 1 else shot_cooldown self in
  {| player_x := player_x self; player_y := player_y self;
     player_angle := player_angle self; shooting := shooting self;
     muzzle_flash_timer := flash; shot_cooldown := cooldown;
     bullet_impacts := age_impacts (bullet_impacts self) |}.

(** The calls the main loop makes on the controller state. *)
Inductive event :=
| Input (pressed : keys)
| Timers.

Fixpoint run (events : list event) (self : game) : option game :=
  match events with
  | [] => Some self
  | Input pressed :: rest => handle_input pressed self ≫= run rest
  | Timers :: rest => run rest (update_timers self)
  end.

(** The streaming step of [run_with_wled_stream]: the game, the streamer and
    [last_wled_update] after it, or the exception that leaves the loop.
    [downscaled] stands for [streamer.downscale_surface(self.game_surface)]. *)
Definition wled_frame_time : R := (1 / 20)%R.

Definition stream_step (post : payload → outcome response) (clk : clock)
    (current_time : R) (downscaled : frame)
    (self : game) (st : streamer) (last_wled_update : R)
    : outcome (game * streamer * R) :=
  if Rle_dec wled_frame_time (current_time - last_wled_update) then
    match WLEDStreamer.send_frame_to_wled WLEDStreamer.rgb_to_wled_index
            post clk st downscaled with
    | (st', _, Return _) => Return (self, st', current_time)
    | (_, _, Raise e) => Raise e
    end
  else Return (self, st, last_wled_update).

(** The states the controller can be in: [__init__], then any sequence of
    [handle_input] and [update_timers] calls. *)
Inductive reachable : game → Prop :=
| reach_init : reachable init
| reach_input pressed self self' :
    reachable self → handle_input pressed self = Some self' → reachable self'
| reach_timers self : reachable self → reachable (update_timers self).

(** [self.wall_colors] *)
Definition wall_colors : list (Z * Z * Z) := [ (200, 50, 50); (150, 30, 30) ].

(** A line [pygame.draw.line(surface, color, (x, top), (x, bottom))]. *)
Record strip := {
  strip_color : Z * Z * Z;
  strip_x : Z;
  strip_top : Z;
  strip_bottom : Z
}.

(** [max(0, min(1, 1 - dist / 8))] *)
Definition shade_of (dist : R) : R := Rmax 0 (Rmin 1 (1 - dist / 8)).

(** [render]: the body of the loop over the columns, for column [i]: the wall
    strip drawn, or [None] when the guard [dist > 0.1] fails. *)
Definition render_column (self : game) (i : Z) : option (option strip) :=
  let ray_angle := ray_angle self i in
  hit ← cast_ray self ray_angle;
  let wall_type := hit.2 in
  let dist := (hit.1 * cos (ray_angle - player_angle self))%R in
  if Rlt_dec 0.1 dist then
    let wall_height := Py.int (IZR GAME_HEIGHT / dist) in
    let wall_top := (GAME_HEIGHT - wall_height) `div` 2 in
    let shade := shade_of dist in
    base ← Py.getitem wall_colors wall_type;
    let color := (Py.int (IZR base.1.1 * shade),
                  Py.int (IZR base.1.2 * shade),
                  Py.int (IZR base.2 * shade)) in
    Some (Some {| strip_color := color; strip_x := i;
                  strip_top := wall_top; strip_bottom := wall_top + wall_height |})
  else Some None.

(** [max(2, int(5 * timer / 10))] *)
Definition impact_size (timer : Z) : Z :=
  Z.max 2 (Py.int (IZR (5 * timer) / 10)).

(** [render]: the body of the loop over the impacts: centre and radius of the
    circle drawn, or [None] when one of the two guards fails. *)
Definition render_impact (self : game) (impact : Z * Z) : option (option (Z * Z * Z)) :=
  let impact_x := impact.1 in
  let timer := impact.2 in
  if 0 <? timer then
    let ray_angle :=
      (player_angle self - fov / 2 + (IZR impact_x / IZR GAME_WIDTH) * fov)%R in
    hit ← cast_ray self ray_angle;
    let dist := (hit.1 * cos (ray_angle - player_angle self))%R in
    if Rlt_dec 0.1 dist then
      let wall_height := Py.int (IZR GAME_HEIGHT / dist) in
      let wall_top := (GAME_HEIGHT - wall_height) `div` 2 in
      let wall_center := wall_top + wall_height `div` 2 in
      Some (Some (impact_x, wall_center, impact_size timer))
    else Some None
  else Some None.

(** [draw_weapon]: the recoil offset and the radius of the muzzle flash
    ([None] when no flash is drawn). *)
Definition recoil (self : game) : Z :=
  if 3 <? muzzle_flash_timer self then 8
  else if 0 <? muzzle_flash_timer self then 3 else 0.

Definition flash_size (self : game) : option Z :=
  if 0 <? muzzle_flash_timer self
  then Some (if 3 <? muzzle_flash_timer self then 50 else 30)
  else None.

End RaycastGame.

(** ** The ray angle of [render] on binary64 numbers *)

Module Binary64.

Local Open Scope float_scope.

(** Conversion of a Python [int] to [float] (exact below 2^53). *)
Definition of_int (z : Z) : float :=
  if (z <? 0)%Z then - PrimFloat.of_uint63 (Uint63.of_Z (- z))
  else PrimFloat.of_uint63 (Uint63.of_Z z).

(** [np.pi] *)
Definition pi : float := 0x1.921fb54442d18p+1.

Definition fov : float := pi / of_int 3.

(** [self.player_angle - fov/2 + (i / num_rays) * fov] *)
Definition ray_angle (player_angle : float) (i : Z) : float :=
  player_angle - fov / of_int 2 + (of_int i / of_int GAME_WIDTH) * fov.

(** [self.rot_speed] *)
Definition rot_speed : float := 0x1.999999999999ap-5.

(** [int(x)] on a float: truncation toward zero; [ValueError] on NaN and
    [OverflowError] on an infinity (here [None]). *)
Definition int (x : float) : option Z :=
  match Prim2SF x with
  | S754_zero _ => Some 0%Z
  | S754_finite negative m e =>
    let magnitude :=
      if (0 <=? e)%Z then (Z.pos m * 2 ^ e)%Z else (Z.pos m `div` 2 ^ (- e))%Z in
    Some (if negative then (- magnitude)%Z else magnitude)
  | S754_infinity _ => None
  | S754_nan => None
  end.

Section March.
(** [np.cos] and [np.sin] on a float, and [x ** 2] on a [np.float64]. *)
Variables np_cos np_sin pow2 : float → float.

(** [for _ in range(200)] of [cast_ray] on binary64 numbers, with the
    iterations left; the [100] of [return 100, 0] is given as the float 100. *)
Fixpoint cast_ray_loop (steps : nat) (player_x player_y dx dy ray_x ray_y : float)
    : option (float * Z) :=
  match steps with
  | O => Some (of_int 100, 0%Z)
  | S steps' =>
    let ray_x := ray_x + dx in
    let ray_y := ray_y + dy in
    map_x ← int ray_x;
    map_y ← int ray_y;
    hit ← RaycastGame.hits_wall map_x map_y;
    if hit : bool then
      let dist := PrimFloat.sqrt (pow2 (ray_x - player_x) + pow2 (ray_y - player_y)) in
      Some (dist, ((map_x + map_y) `mod` 2)%Z)
    else cast_ray_loop steps' player_x player_y dx dy ray_x ray_y
  end.

(** [cast_ray(self, angle)] on binary64 numbers, from the position
    [(player_x, player_y)] of [self]; [0.02] is the float
    [0x1.47ae147ae147bp-6]. *)
Definition cast_ray (player_x player_y angle : float) : option (float * Z) :=
  let ray_x := player_x in
  let ray_y := player_y in
  let dx := np_cos angle * 0x1.47ae147ae147bp-6 in
  let dy := np_sin angle * 0x1.47ae147ae147bp-6 in
  cast_ray_loop 200 player_x player_y dx dy ray_x ray_y.

End March.

End Binary64.

(** ** calibrate_wled.py, the pattern functions *)

Module CalibrateTool.

(** What a pattern function returns: [None] or a list. *)
Definition color := option (list Z).

(** [if color:] *)
Definition truthy (c : color) : bool :=
  match c with
  | Some (_ :: _) => true
  | _ => false
  end.

(** [send_pattern(leds)]: the exception whose message is printed, if any, and
    the value returned. *)
Definition send_pattern (post : payload → outcome response) (leds : list (list Z))
    : option exn * outcome bool :=
  let request :=
    {| on := true; bri := 255; seg := [ {| seg_id := 0; seg_i := Some <$> leds |} ] |} in
  match post request with
  | Return resp => (None, Return (status_code resp =? 200))
  | Raise e => (Some e, Return false)
  end.

(** Body of the inner loop of [show_xy_pattern]. *)
Definition show_pixel (pattern_func : Z → Z → color) (y x : Z)
    (leds : list (list Z)) : option (list (list Z)) :=
  match pattern_func x y with
  | Some c =>
    if truthy (Some c) then
      let idx := Calibrate.rgb_to_wled_index x y in
      Py.setitem leds idx c
    else Some leds
  | None => Some leds
  end.

(** The array [show_xy_pattern] builds, from [[[0, 0, 0] for _ in range(128)]]. *)
Definition show_xy_leds (pattern_func : Z → Z → color) : option (list (list Z)) :=
  Py.for_each (Py.range MATRIX_HEIGHT)
    (λ y, Py.for_each (Py.range MATRIX_WIDTH) (λ x, show_pixel pattern_func y x))
    (replicate 128 [0; 0; 0]).

(** [show_xy_pattern(pattern_func)]: what [send_pattern] did with the array,
    or the exception of the loops. *)
Definition show_xy_pattern (post : payload → outcome response)
    (pattern_func : Z → Z → color) : outcome (option exn * outcome bool) :=
  match show_xy_leds pattern_func with
  | Some leds => Return (send_pattern post leds)
  | None => Raise IndexError
  end.

End CalibrateTool.

(** ** test_wled_mapping.py *)

Module MappingTest.

(** [for i in range(a, b): leds[i] = color] *)
Definition light_range (a b : Z) (c : list Z) (leds : list (list Z))
    : option (list (list Z)) :=
  Py.for_each (Py.range_from a b) (λ i leds, Py.setitem leds i c) leds.

(** A Python [str], character by character. *)
Definition str := list ascii.

(** [FONT_O] and [FONT_K], the 5 x 7 bitmaps. *)
Definition FONT_O : list str :=
  list_ascii_of_string <$>
    [ "01110"; "10001"; "10001"; "10001"; "10001"; "10001"; "01110" ]%string.

Definition FONT_K : list str :=
  list_ascii_of_string <$>
    [ "10010"; "10100"; "11000"; "11000"; "10100"; "10010"; "10001" ]%string.

(** Body of the loops that draw a letter starting at column [col]. *)
Definition draw_pixel (font : list str) (col : Z) (y x : Z)
    (leds : list (list Z)) : option (list (list Z)) :=
  row ← Py.getitem font y;
  ch ← Py.getitem row x;
  if Ascii.eqb ch "1" then
    let led_idx := (y + 1) * 16 + (x + col) in
    if led_idx <? 128 then Py.setitem leds led_idx [0; 255; 0]
    else Some leds
  else Some leds.

(** [for y in range(7): for x in range(5): ...] *)
Definition draw_glyph (font : list str) (col : Z) (leds : list (list Z))
    : option (list (list Z)) :=
  Py.for_each (Py.range 7)
    (λ y, Py.for_each (Py.range 5) (λ x, draw_pixel font col y x)) leds.

End MappingTest.

(** ** Index mappers (claim C2) *)

(** [f] sends the 16 x 8 coordinate pairs one-to-one onto the 128 device
    indices. *)
Definition grid_bijection (f : Z → Z → Z) : Prop :=
  (∀ x y, 0 ≤ x < MATRIX_WIDTH → 0 ≤ y < MATRIX_HEIGHT → 0 ≤ f x y < 128) ∧
  (∀ x y x' y', 0 ≤ x < MATRIX_WIDTH → 0 ≤ y < MATRIX_HEIGHT →
                0 ≤ x' < MATRIX_WIDTH → 0 ≤ y' < MATRIX_HEIGHT →
                f x y = f x' y' → x = x' ∧ y = y') ∧
  (∀ i, 0 ≤ i < 128 →
        ∃ x y, 0 ≤ x < MATRIX_WIDTH ∧ 0 ≤ y < MATRIX_HEIGHT ∧ f x y = i).

(** The inverse of the serpentine mapper, read off its four cases. *)
Definition serpentine_inverse (i : Z) : Z * Z :=
  if i <? 64 then
    let y := i `div` 8 in
    let c := i `mod` 8 in
    (if y `mod` 2 =? 0 then c else 7 - c, y)
  else
    let r := (i - 64) `div` 8 in
    let c := (i - 64) `mod` 8 in
    (8 + (if r `mod` 2 =? 0 then 7 - c else c), 7 - r).

(** ** Vocabulary of the streamer properties *)

(** The colour triple [send_frame_to_wled] computes for the pixel at row [y],
    column [x]. *)
Definition pixel_rgb (frame_data : frame) (y x : Z) : option led :=
  WLEDStreamer.frame_getitem frame_data y x ≫= WLEDStreamer.rgb_of.

(** The coordinate pair [(x, y)] is written at position [i] of the array. *)
Definition writes_to (mapper : Z → Z → Z) (x y : Z) (i : nat) : Prop :=
  Py.index 128 (mapper x y) = Some i.

(** State of [ordered_leds] once the coordinate pairs in [C] have been
    processed: a position written by none of them still holds [None]; any
    other holds the colour of a pixel written there. *)
Definition covers (mapper : Z → Z → Z) (frame_data : frame)
    (C : Z → Z → Prop) (leds : list (option led)) : Prop :=
  length leds = 128%nat ∧
  ∀ i, (i < 128)%nat →
    (leds !! i = Some None ∧ ∀ x y, C x y → ¬ writes_to mapper x y i) ∨
    (∃ x y c, C x y ∧ writes_to mapper x y i ∧
              pixel_rgb frame_data y x = Some c ∧ leds !! i = Some (Some c)).

(** The pairs the two loops visit. *)
Definition on_matrix (x y : Z) : Prop :=
  0 ≤ x < MATRIX_WIDTH ∧ 0 ≤ y < MATRIX_HEIGHT.

(** A frame of the shape [downscale_surface] returns: 8 rows of 16 pixels of
    3 channels. *)
Definition frame_8x16 (frame_data : frame) : Prop :=
  length frame_data = 8%nat ∧
  Forall (λ row, length row = 16%nat ∧ Forall (λ px : list Z, length px = 3%nat) row)
         frame_data.

(** A frame filled with one colour. *)
Definition solid_frame (r g b : Z) : frame :=
  replicate 8 (replicate 16 [r; g; b]).


(** ** Vocabulary of the game properties *)

Definition WALL : Z := 1.
Definition EMPTY : Z := 0.

(** The value of the grid cell in column [mx], row [my]; [None] outside the
    8 x 8 grid. *)
Definition cell_at (mx my : Z) : option Z :=
  if (0 <=? mx) && (mx <? 8) && (0 <=? my) && (my <? 8)
  then (RaycastGame.map !! Z.to_nat my) ≫= (λ row, row !! Z.to_nat mx)
  else None.

(** The cell containing a position. *)
Definition cell_of (x y : R) : option Z := cell_at (Py.int x) (Py.int y).

(** The player stands in an EMPTY cell of the grid. *)
Definition in_open_cell (self : RaycastGame.game) : Prop :=
  cell_of (RaycastGame.player_x self) (RaycastGame.player_y self) = Some EMPTY.

(** The point a ray from the player reaches after [k] steps of 0.02 along
    [angle]. *)
Definition ray_point (self : RaycastGame.game) (angle : R) (k : nat) : R * R :=
  (RaycastGame.player_x self + INR k * (cos angle * 0.02),
   RaycastGame.player_y self + INR k * (sin angle * 0.02))%R.

Definition ray_cell (self : RaycastGame.game) (angle : R) (k : nat) : Z * Z :=
  (Py.int (ray_point self angle k).1, Py.int (ray_point self angle k).2).

(** Step [k] of the ray lands in a WALL cell of the grid. *)
Definition hit_at (self : RaycastGame.game) (angle : R) (k : nat) : Prop :=
  cell_at (ray_cell self angle k).1 (ray_cell self angle k).2 = Some WALL.

(** Step [k] is the first of the 200 steps that lands in a WALL cell. *)
Definition first_hit (self : RaycastGame.game) (angle : R) (k : nat) : Prop :=
  (1 ≤ k ≤ 200)%nat ∧ hit_at self angle k ∧
  ∀ j, (1 ≤ j < k)%nat → ¬ hit_at self angle j.

(** None of the 200 steps lands in a WALL cell. *)
Definition no_hit (self : RaycastGame.game) (angle : R) : Prop :=
  ∀ j, (1 ≤ j ≤ 200)%nat → ¬ hit_at self angle j.

(** Euclidean distance from the player to a point. *)
Definition distance_to (self : RaycastGame.game) (p : R * R) : R :=
  sqrt ((p.1 - RaycastGame.player_x self) ^ 2 + (p.2 - RaycastGame.player_y self) ^ 2)%R.

(** The four moves of [handle_input], the key of each, and the position each
    proposes. *)
Inductive move := Forward | Backward | StrafeLeft | StrafeRight.

Definition requested (pressed : RaycastGame.keys) (m : move) : bool :=
  match m with
  | Forward => RaycastGame.K_UP pressed
  | Backward => RaycastGame.K_DOWN pressed
  | StrafeLeft => RaycastGame.K_a pressed
  | StrafeRight => RaycastGame.K_d pressed
  end.

Definition proposed (m : move) (self : RaycastGame.game) : R * R :=
  let x := RaycastGame.player_x self in
  let y := RaycastGame.player_y self in
  let a := RaycastGame.player_angle self in
  let v := RaycastGame.move_speed in
  match m with
  | Forward => (x + cos a * v, y + sin a * v)
  | Backward => (x - cos a * v, y - sin a * v)
  | StrafeLeft => (x + cos (a - PI / 2) * v, y + sin (a - PI / 2) * v)
  | StrafeRight => (x + cos (a + PI / 2) * v, y + sin (a + PI / 2) * v)
  end%R.

(** The three stages of [handle_input]: the rotation block, one movement
    block, and the shooting block. *)
Definition after_rotation (pressed : RaycastGame.keys) (self : RaycastGame.game)
    : RaycastGame.game :=
  let self := if RaycastGame.K_LEFT pressed
              then RaycastGame.set_angle self
                     (RaycastGame.player_angle self - RaycastGame.rot_speed)%R
              else self in
  if RaycastGame.K_RIGHT pressed
  then RaycastGame.set_angle self
         (RaycastGame.player_angle self + RaycastGame.rot_speed)%R
  else self.

Definition move_block (pressed : bool) (m : move) (self : RaycastGame.game)
    : option RaycastGame.game :=
  if pressed
  then RaycastGame.move_to self (proposed m self).1 (proposed m self).2
  else Some self.

Definition fire_block (pressed : RaycastGame.keys) (self : RaycastGame.game)
    : option RaycastGame.game :=
  if RaycastGame.K_SPACE pressed && (RaycastGame.shot_cooldown self =? 0)
  then RaycastGame.shoot self else Some self.

(** Two states agree on everything but the position and heading. *)
Definition same_timers (s s' : RaycastGame.game) : Prop :=
  RaycastGame.shooting s' = RaycastGame.shooting s ∧
  RaycastGame.muzzle_flash_timer s' = RaycastGame.muzzle_flash_timer s ∧
  RaycastGame.shot_cooldown s' = RaycastGame.shot_cooldown s ∧
  RaycastGame.bullet_impacts s' = RaycastGame.bullet_impacts s.

(** The state [shoot] leaves, given whether the hit test passed. *)
Definition after_shot (self : RaycastGame.game) (hit : bool) : RaycastGame.game :=
  {| RaycastGame.player_x := RaycastGame.player_x self;
     RaycastGame.player_y := RaycastGame.player_y self;
     RaycastGame.player_angle := RaycastGame.player_angle self;
     RaycastGame.shooting := true;
     RaycastGame.muzzle_flash_timer := 5;
     RaycastGame.shot_cooldown := 10;
     RaycastGame.bullet_impacts :=
       RaycastGame.bullet_impacts self
       ++ (if hit then [(GAME_WIDTH `div` 2, 10)] else []) |}.

(** The player walked backwards from the start to the west end of row 3, and
    the player close to the east wall. *)
Definition far_state : RaycastGame.game :=
  RaycastGame.set_position RaycastGame.init 1.5 3.5.

Definition at_east_wall : RaycastGame.game :=
  RaycastGame.set_position RaycastGame.init 6.97 3.5.

(** Key snapshots and states used in the examples. *)
Definition only_space : RaycastGame.keys :=
  {| RaycastGame.K_LEFT := false; RaycastGame.K_RIGHT := false;
     RaycastGame.K_UP := false; RaycastGame.K_DOWN := false;
     RaycastGame.K_a := false; RaycastGame.K_d := false;
     RaycastGame.K_SPACE := true |}.

Definition only_up : RaycastGame.keys :=
  {| RaycastGame.K_LEFT := false; RaycastGame.K_RIGHT := false;
     RaycastGame.K_UP := true; RaycastGame.K_DOWN := false;
     RaycastGame.K_a := false; RaycastGame.K_d := false;
     RaycastGame.K_SPACE := false |}.

Definition only_down : RaycastGame.keys :=
  {| RaycastGame.K_LEFT := false; RaycastGame.K_RIGHT := false;
     RaycastGame.K_UP := false; RaycastGame.K_DOWN := true;
     RaycastGame.K_a := false; RaycastGame.K_d := false;
     RaycastGame.K_SPACE := false |}.

(** The number of [update_timers] calls in a sequence of events. *)
Fixpoint timer_ticks (events : list RaycastGame.event) : nat :=
  match events with
  | [] => 0
  | RaycastGame.Timers :: rest => S (timer_ticks rest)
  | RaycastGame.Input _ :: rest => timer_ticks rest
  end.


(** Comparison of reals, as the tests [dist < 10] and [>= 2.0] decide it. *)
#[global] Instance Rlt_decision (x y : R) : Decision (x < y)%R := Rlt_dec x y.


(** ** Vocabulary of the further properties *)

Definition black : list Z := [0; 0; 0].

(** The colour [show_xy_pattern] leaves at the pixel [(x, y)]: what the
    pattern function returns when that is truthy, black otherwise. *)
Definition shown (pattern_func : Z → Z → CalibrateTool.color) (x y : Z) : list Z :=
  match pattern_func x y with
  | Some (c :: cs) => c :: cs
  | _ => black
  end.

(** State of the array of [show_xy_pattern] once the pairs in [C] have been
    processed. *)
Definition painted (pattern_func : Z → Z → CalibrateTool.color)
    (C : Z → Z → Prop) (leds : list (list Z)) : Prop :=
  length leds = 128%nat ∧
  ∀ x y, on_matrix x y →
    leds !! Z.to_nat (Calibrate.rgb_to_wled_index x y) = Some (shown pattern_func x y) ∨
    (¬ C x y ∧ leds !! Z.to_nat (Calibrate.rgb_to_wled_index x y) = Some black).

(** The request [send_pattern] posts for an array. *)
Definition pattern_request (leds : list (list Z)) : payload :=
  {| on := true; bri := 255; seg := [ {| seg_id := 0; seg_i := Some <$> leds |} ] |}.

(** The timers after a shot: the flash is over five ticks before the
    cooldown. *)
Definition timers_in_step (s : RaycastGame.game) : Prop :=
  (RaycastGame.muzzle_flash_timer s = 0 ∧ 0 ≤ RaycastGame.shot_cooldown s ≤ 5) ∨
  (1 ≤ RaycastGame.muzzle_flash_timer s ≤ 5 ∧
   RaycastGame.shot_cooldown s = RaycastGame.muzzle_flash_timer s + 5).

(** The impact list is empty or holds the impact of the last shot. *)
Definition single_impact (s : RaycastGame.game) : Prop :=
  RaycastGame.bullet_impacts s = [] ∨
  (RaycastGame.bullet_impacts s = [(160, RaycastGame.shot_cooldown s)] ∧
   1 ≤ RaycastGame.shot_cooldown s ≤ 10).

(** The offset of the ray of column [i] from the heading. *)
Definition ray_offset (self : RaycastGame.game) (i : Z) : R :=
  (RaycastGame.ray_angle self i - RaycastGame.player_angle self)%R.


Definition green : list Z := [0; 255; 0].

(** The bit of a 5 x 7 bitmap in row [y], column [x]. *)
Definition glyph_bit (font : list MappingTest.str) (y x : Z) : bool :=
  match Py.getitem font y ≫= (λ row, Py.getitem row x) with
  | Some ch => Ascii.eqb ch "1"
  | None => false
  end.

(** A bitmap of 7 rows of 5 characters. *)
Definition glyph_5x7 (font : list MappingTest.str) : Prop :=
  length font = 7%nat ∧ Forall (λ row : MappingTest.str, length row = 5%nat) font.

(** State of the array once the bitmap positions in [C] have been drawn at
    column [col] over the array [leds0]. *)
Definition glyph_drawn (font : list MappingTest.str) (col : Z)
    (C : Z → Z → Prop) (leds0 leds : list (list Z)) : Prop :=
  length leds = length leds0 ∧
  ∀ i : nat,
    (leds !! i = Some green ∧
     ∃ x y, C x y ∧ glyph_bit font y x = true ∧ Z.to_nat ((y + 1) * 16 + (x + col)) = i) ∨
    (leds !! i = leds0 !! i ∧
     ∀ x y, C x y → glyph_bit font y x = true → Z.to_nat ((y + 1) * 16 + (x + col)) ≠ i).


(** ** Vocabulary of the march on binary64 numbers *)

(** The float is a number: neither NaN nor one of the infinities. *)
Definition finite64 (x : float) : bool :=
  match Prim2SF x with
  | S754_zero _ | S754_finite _ _ _ => true
  | S754_infinity _ | S754_nan => false
  end.

(** The coordinate reached from [start] by [k] additions of the step [d]. *)
Definition marched (start d : float) (k : nat) : float :=
  Nat.iter k (λ r, (r + d)%float) start.

Section Ray64.
(** The origin of the ray, and the cosine and sine of its angle. *)
Variables px py c s : float.

(** The point the ray reaches after [k] steps: each step adds the direction
    scaled by the float nearest to 0.02. *)
Definition ray_point64 (k : nat) : float * float :=
  (marched px (c * 0x1.47ae147ae147bp-6)%float k,
   marched py (s * 0x1.47ae147ae147bp-6)%float k).

Definition ray_finite64 (k : nat) : Prop :=
  finite64 (ray_point64 k).1 = true ∧ finite64 (ray_point64 k).2 = true.

(** The truncation of that point to cell coordinates. *)
Definition ray_cell64 (k : nat) : option (Z * Z) :=
  mx ← Binary64.int (ray_point64 k).1;
  my ← Binary64.int (ray_point64 k).2;
  Some (mx, my).

(** Step [k] of the ray lands in a WALL cell of the grid. *)
Definition hit_at64 (k : nat) : Prop :=
  ∃ mx my, ray_cell64 k = Some (mx, my) ∧ cell_at mx my = Some WALL.

(** Step [k] is the first of the 200 steps that lands in a WALL cell. *)
Definition first_hit64 (k : nat) : Prop :=
  (1 ≤ k ≤ 200)%nat ∧ hit_at64 k ∧ ∀ j, (1 ≤ j < k)%nat → ¬ hit_at64 j.

(** None of the 200 steps lands in a WALL cell. *)
Definition no_hit64 : Prop :=
  ∀ j, (1 ≤ j ≤ 200)%nat → ¬ hit_at64 j.

(** Euclidean distance from the origin to the point of step [k], with the
    squares taken by [pow2]. *)
Definition distance64 (pow2 : float → float) (k : nat) : float :=
  PrimFloat.sqrt (pow2 ((ray_point64 k).1 - px) + pow2 ((ray_point64 k).2 - py))%float.

End Ray64.

(** [hit_at64] as a test that evaluates. *)
Definition hits64 (px py c s : float) (k : nat) : bool :=
  match ray_cell64 px py c s k with
  | Some (mx, my) => bool_decide (cell_at mx my = Some WALL)
  | None => false
  end.

(** The rounded product, for [x ** 2]. *)
Definition square64 (x : float) : float := (x * x)%float.

(** The first [n] steps of a ray are numbers (a test that evaluates). *)
Definition ray_finite64_upto (px py c s : float) (n : nat) : bool :=
  forallb (λ k, finite64 (ray_point64 px py c s k).1 && finite64 (ray_point64 px py c s k).2)
          (seq 1 n).


(** * Properties *)

Lemma native_bijection : grid_bijection WLEDStreamer.rgb_to_wled_index.
Proof.
  unfold grid_bijection, WLEDStreamer.rgb_to_wled_index, MATRIX_WIDTH, MATRIX_HEIGHT.
  repeat split; try lia.
  intros i Hi. exists (i `mod` 16), (i `div` 16).
  pose proof (Z.mod_pos_bound i 16). pose proof (Z.div_mod i 16). lia.
Qed.

(** Checking a decidable property on every element of [range(n)]. *)
Lemma range_forallb (n : Z) (P : Z → bool) :
  forallb P (Py.range n) = true → ∀ x, 0 ≤ x < n → P x = true.
Proof.
  intros H x Hx. rewrite forallb_forall in H. apply H.
  unfold Py.range. apply in_map_iff. exists (Z.to_nat x). split; [lia|].
  apply in_seq. lia.
Qed.

Lemma serpentine_row_column (x y : Z) :
  0 ≤ x < 16 → 0 ≤ y < 8 →
  let i := Calibrate.rgb_to_wled_index x y in
  0 ≤ i < 128 ∧ serpentine_inverse i = (x, y).
Proof.
  intros Hx Hy.
  pose (P := λ x y : Z,
    let i := Calibrate.rgb_to_wled_index x y in
    (0 <=? i) && (i <? 128) &&
    ((serpentine_inverse i).1 =? x) && ((serpentine_inverse i).2 =? y)).
  assert (HP : P x y = true).
  { revert y Hy. apply (range_forallb 8 (P x)).
    revert x Hx. apply (range_forallb 16 (λ x, forallb (P x) (Py.range 8))).
    vm_compute. reflexivity. }
  unfold P in HP. cbv zeta in *.
  destruct (serpentine_inverse (Calibrate.rgb_to_wled_index x y)) as [a b].
  simpl in HP. split; [lia | f_equal; lia].
Qed.

Lemma serpentine_inverse_right (i : Z) :
  0 ≤ i < 128 →
  let c := serpentine_inverse i in
  0 ≤ c.1 < 16 ∧ 0 ≤ c.2 < 8 ∧ Calibrate.rgb_to_wled_index c.1 c.2 = i.
Proof.
  intros Hi.
  pose (P := λ i : Z,
    let c := serpentine_inverse i in
    (0 <=? c.1) && (c.1 <? 16) && (0 <=? c.2) && (c.2 <? 8) &&
    (Calibrate.rgb_to_wled_index c.1 c.2 =? i)).
  assert (HP : P i = true).
  { revert i Hi. apply (range_forallb 128 P). vm_compute. reflexivity. }
  unfold P in HP. cbv zeta in *. lia.
Qed.

Lemma serpentine_bijection : grid_bijection Calibrate.rgb_to_wled_index.
Proof.
  unfold grid_bijection, MATRIX_WIDTH, MATRIX_HEIGHT. repeat split.
  - apply serpentine_row_column; lia.
  - apply serpentine_row_column; lia.
  - pose proof (serpentine_row_column x y ltac:(lia) ltac:(lia)) as [_ E1].
    pose proof (serpentine_row_column x' y' ltac:(lia) ltac:(lia)) as [_ E2].
    rewrite H3 in E1. congruence.
  - pose proof (serpentine_row_column x y ltac:(lia) ltac:(lia)) as [_ E1].
    pose proof (serpentine_row_column x' y' ltac:(lia) ltac:(lia)) as [_ E2].
    rewrite H3 in E1. congruence.
  - intros i Hi. exists (serpentine_inverse i).1, (serpentine_inverse i).2.
    apply serpentine_inverse_right. lia.
Qed.

(** C2: on the 16 x 8 matrix both addressing regimes, the native row-major
    mapper [y * 16 + x] of [WLEDStreamer] and the two-panel serpentine mapper
    of [calibrate_wled.py], return an index in [0, 128) for every coordinate
    pair, never the same index for two pairs, and reach every index. *)
Theorem index_mappers_bijective :
  grid_bijection WLEDStreamer.rgb_to_wled_index ∧
  grid_bijection Calibrate.rgb_to_wled_index.
Proof. split; [apply native_bijection | apply serpentine_bijection]. Qed.

(** ** Loops and list indexing *)


Lemma index_nonneg len i :
  0 ≤ i < Z.of_nat len → Py.index len i = Some (Z.to_nat i).
Proof.
  intros H. unfold Py.index.
  destruct ((0 <=? i) && (i <? Z.of_nat len)) eqn:E1; [reflexivity | lia].
Qed.

Lemma getitem_nonneg {A} (l : list A) i :
  0 ≤ i < Z.of_nat (length l) → Py.getitem l i = l !! Z.to_nat i.
Proof. intros H. unfold Py.getitem. rewrite index_nonneg by done. reflexivity. Qed.

Lemma elem_of_range n x : x ∈ Py.range n ↔ 0 ≤ x < n.
Proof.
  unfold Py.range. rewrite list_elem_of_fmap. split.
  - intros (k & -> & Hk). apply elem_of_seq in Hk. lia.
  - intros H. exists (Z.to_nat x). split; [lia|]. apply elem_of_seq. lia.
Qed.

(** A loop whose body succeeds under an invariant runs to its end and
    establishes the invariant for all the elements. *)
Lemma for_each_total {S} (I : list Z → S → Prop) (body : Z → S → option S) xs :
  (∀ done x s, I done s → x ∈ xs →
     ∃ s', body x s = Some s' ∧ I (done ++ [x]) s') →
  ∀ done s, I done s →
    ∃ s', Py.for_each xs body s = Some s' ∧ I (done ++ xs) s'.
Proof.
  induction xs as [|x xs IH]; intros Hbody done s HI.
  - exists s. rewrite app_nil_r. done.
  - destruct (Hbody done x s HI) as (s1 & E1 & H1); [left|].
    destruct (IH (λ d y t Ht Hy, Hbody d y t Ht (list_elem_of_further _ _ _ Hy))
                 (done ++ [x]) s1 H1) as (s2 & E2 & H2).
    exists s2. simpl. rewrite E1. simpl. rewrite <- app_assoc in H2. done.
Qed.

(** A loop that ran to its end preserved every invariant of its body. *)
Lemma for_each_inv {S} (I : list Z → S → Prop) (body : Z → S → option S) xs :
  (∀ done x s s', I done s → x ∈ xs → body x s = Some s' → I (done ++ [x]) s') →
  ∀ done s s', I done s → Py.for_each xs body s = Some s' → I (done ++ xs) s'.
Proof.
  induction xs as [|x xs IH]; intros Hbody done s s' HI E.
  - simpl in E. inversion E; subst. rewrite app_nil_r. done.
  - simpl in E. destruct (body x s) as [s1|] eqn:E1; [|discriminate]. simpl in E.
    replace (done ++ x :: xs) with ((done ++ [x]) ++ xs) by (rewrite <- app_assoc; done).
    apply (IH (λ d y t t' Ht Hy, Hbody d y t t' Ht (list_elem_of_further _ _ _ Hy))
              (done ++ [x]) s1 s'); [|done].
    apply (Hbody done x s s1 HI); [left | done].
Qed.

(** ** The LED array built by [send_frame_to_wled] *)

Lemma covers_ext mapper fr (C C' : Z → Z → Prop) leds :
  (∀ x y, C x y ↔ C' x y) → covers mapper fr C leds → covers mapper fr C' leds.
Proof.
  intros HC [Hlen H]. split; [done|]. intros i Hi.
  destruct (H i Hi) as [[E N] | (x & y & c & Hc & W & P & E)].
  - left. split; [done|]. intros x y Hxy. apply N, HC, Hxy.
  - right. exists x, y, c. rewrite <- HC. done.
Qed.

Lemma covers_start mapper fr :
  covers mapper fr (λ _ _, False) (replicate (Z.to_nat (MATRIX_WIDTH * MATRIX_HEIGHT)) None).
Proof.
  split; [reflexivity|]. intros i Hi. left. split; [|tauto].
  apply lookup_replicate_2. exact Hi.
Qed.

(** One execution of the loop body. *)
Lemma store_pixel_covers mapper fr C leds leds' x y :
  covers mapper fr C leds →
  WLEDStreamer.store_pixel mapper fr y x leds = Some leds' →
  covers mapper fr (λ x' y', C x' y' ∨ (x' = x ∧ y' = y)) leds'.
Proof.
  intros [Hlen H] E. unfold WLEDStreamer.store_pixel in E.
  destruct (WLEDStreamer.frame_getitem fr y x) as [pixel|] eqn:Epx; [|discriminate].
  simpl in E.
  destruct (WLEDStreamer.rgb_of pixel) as [c|] eqn:Ec; [|discriminate].
  simpl in E. unfold Py.setitem in E. rewrite Hlen in E.
  destruct (Py.index 128 (mapper x y)) as [n|] eqn:En; [|discriminate].
  simpl in E. inversion E; subst leds'; clear E.
  assert (Hrgb : pixel_rgb fr y x = Some c).
  { unfold pixel_rgb. rewrite Epx. exact Ec. }
  split; [rewrite length_insert; exact Hlen|].
  intros i Hi. destruct (decide (n = i)) as [->|Hne].
  - right. exists x, y, c. split; [right; done|]. split; [exact En|].
    split; [exact Hrgb|]. apply list_lookup_insert_eq. lia.
  - rewrite list_lookup_insert_ne by done.
    destruct (H i Hi) as [[E N] | (x0 & y0 & c0 & Hc & W & P & E)].
    + left. split; [done|]. intros x' y' [Hc | [-> ->]]; [apply N, Hc|].
      unfold writes_to. rewrite En. congruence.
    + right. exists x0, y0, c0. tauto.
Qed.

(** The loops, when they run to their end. *)
Lemma fill_ordered_leds_covers mapper fr leds :
  WLEDStreamer.fill_ordered_leds mapper fr = Some leds →
  covers mapper fr on_matrix leds.
Proof.
  intros E. unfold WLEDStreamer.fill_ordered_leds in E.
  pose (Row := λ (ys : list Z) (l : list (option led)),
          covers mapper fr (λ x y, y ∈ ys ∧ x ∈ Py.range MATRIX_WIDTH) l).
  assert (HR : Row ([] ++ Py.range MATRIX_HEIGHT) leds).
  { eapply (for_each_inv Row); [| |exact E].
    - intros ys y s s' Hs _ Ey.
      pose (Col := λ (xs : list Z) (l : list (option led)),
              covers mapper fr
                (λ x' y', (y' ∈ ys ∧ x' ∈ Py.range MATRIX_WIDTH) ∨ (y' = y ∧ x' ∈ xs)) l).
      assert (HC : Col ([] ++ Py.range MATRIX_WIDTH) s').
      { eapply (for_each_inv Col); [| |exact Ey].
        - intros xs x l l' Hl _ Ex. unfold Col.
          eapply covers_ext; [|exact (store_pixel_covers _ _ _ _ _ _ _ Hl Ex)].
          intros x' y'. simpl. rewrite elem_of_app, list_elem_of_singleton. tauto.
        - unfold Col. eapply covers_ext; [|exact Hs].
          intros x' y'. simpl. rewrite elem_of_nil. tauto. }
      unfold Col in HC. unfold Row. eapply covers_ext; [|exact HC].
      intros x' y'. simpl. rewrite elem_of_app, list_elem_of_singleton.
      split; [intros [?|[-> ?]]; tauto | intros [[?| ->] ?]; tauto].
    - unfold Row. eapply covers_ext; [|apply covers_start].
      intros x' y'. simpl. rewrite elem_of_nil. tauto. }
  unfold Row in HR. eapply covers_ext; [|exact HR].
  intros x y. simpl. rewrite !elem_of_range. unfold on_matrix. tauto.
Qed.

(** The loops run to their end on a frame of the right shape when the mapper
    stays within the index range of the array. *)
Lemma pixel_rgb_frame_8x16 fr x y :
  frame_8x16 fr → on_matrix x y →
  ∃ r g b, pixel_rgb fr y x = Some [r; g; b] ∧
           (fr !! Z.to_nat y) ≫= (λ row, row !! Z.to_nat x) = Some [r; g; b].
Proof.
  intros [Hrows Hall] [Hx Hy]. unfold MATRIX_WIDTH, MATRIX_HEIGHT in *.
  destruct (lookup_lt_is_Some_2 fr (Z.to_nat y)) as [row Erow]; [lia|].
  pose proof (proj1 (Forall_lookup _ _) Hall _ _ Erow) as [Hcols Hpx].
  destruct (lookup_lt_is_Some_2 row (Z.to_nat x)) as [px Epx]; [lia|].
  pose proof (proj1 (Forall_lookup _ _) Hpx _ _ Epx) as Hch.
  destruct px as [|r [|g [|b [|? ?]]]]; try discriminate.
  exists r, g, b. split.
  - unfold pixel_rgb, WLEDStreamer.frame_getitem.
    rewrite getitem_nonneg by lia. rewrite Erow. simpl.
    rewrite getitem_nonneg by lia. rewrite Epx. reflexivity.
  - rewrite Erow. simpl. exact Epx.
Qed.

Lemma fill_ordered_leds_total mapper fr :
  frame_8x16 fr →
  (∀ x y, on_matrix x y → -128 ≤ mapper x y < 128) →
  ∃ leds, WLEDStreamer.fill_ordered_leds mapper fr = Some leds.
Proof.
  intros Hfr Hmap. unfold WLEDStreamer.fill_ordered_leds.
  pose (Len := λ (_ : list Z) (l : list (option led)), length l = 128%nat).
  destruct (for_each_total Len
    (λ y, Py.for_each (Py.range MATRIX_WIDTH) (λ x, WLEDStreamer.store_pixel mapper fr y x))
    (Py.range MATRIX_HEIGHT)) with (done := @nil Z)
    (s := replicate (Z.to_nat (MATRIX_WIDTH * MATRIX_HEIGHT)) (@None led))
    as (leds & E & _); [| reflexivity | exists leds; exact E].
  intros ys y s Hs Hy. apply elem_of_range in Hy.
  destruct (for_each_total Len (λ x, WLEDStreamer.store_pixel mapper fr y x)
    (Py.range MATRIX_WIDTH)) with (done := @nil Z) (s := s)
    as (s' & E & Hs'); [| exact Hs | exists s'; split; [exact E | exact Hs']].
  intros xs x l Hl Hx. apply elem_of_range in Hx.
  destruct (pixel_rgb_frame_8x16 fr x y Hfr (conj Hx Hy)) as (r & g & b & Ergb & _).
  unfold pixel_rgb in Ergb. unfold WLEDStreamer.store_pixel.
  destruct (WLEDStreamer.frame_getitem fr y x) as [px|]; [|discriminate].
  simpl in *. rewrite Ergb. simpl. unfold Py.setitem. unfold Len in Hl. rewrite Hl.
  pose proof (Hmap x y (conj Hx Hy)) as Hi.
  unfold Py.index. change (Z.of_nat 128) with 128.
  destruct ((0 <=? mapper x y) && (mapper x y <? 128)) eqn:E1; simpl.
  - eexists. split; [reflexivity|]. unfold Len. rewrite length_insert. exact Hl.
  - change (- (128)) with (-128).
    destruct ((-128 <=? mapper x y) && (mapper x y <? 0)) eqn:E2; [|lia]. simpl.
    eexists. split; [reflexivity|]. unfold Len. rewrite length_insert. exact Hl.
Qed.

Lemma native_writes_to x y i :
  on_matrix x y →
  (writes_to WLEDStreamer.rgb_to_wled_index x y i ↔ i = Z.to_nat (y * 16 + x)).
Proof.
  intros [Hx Hy]. unfold writes_to, WLEDStreamer.rgb_to_wled_index, MATRIX_WIDTH, MATRIX_HEIGHT in *.
  rewrite index_nonneg by (change (Z.of_nat 128) with 128; lia).
  split; congruence.
Qed.

(** C4: for every frame of 8 rows by 16 columns, [send_frame_to_wled] builds
    an array of exactly 128 entries whose entry [y * 16 + x] is the [r, g, b]
    triple of the pixel at row [y], column [x]. *)
Theorem native_stream_is_row_major (fr : frame) :
  frame_8x16 fr →
  ∃ leds,
    WLEDStreamer.fill_ordered_leds WLEDStreamer.rgb_to_wled_index fr = Some leds ∧
    length leds = Z.to_nat (MATRIX_WIDTH * MATRIX_HEIGHT) ∧
    ∀ x y, 0 ≤ x < 16 → 0 ≤ y < 8 →
      ∃ r g b,
        (fr !! Z.to_nat y) ≫= (λ row, row !! Z.to_nat x) = Some [r; g; b] ∧
        leds !! Z.to_nat (y * 16 + x) = Some (Some [r; g; b]).
Proof.
  intros Hfr.
  destruct (fill_ordered_leds_total WLEDStreamer.rgb_to_wled_index fr Hfr) as [leds E].
  { intros x y [Hx Hy].
    unfold WLEDStreamer.rgb_to_wled_index, MATRIX_WIDTH, MATRIX_HEIGHT in *. lia. }
  exists leds. split; [exact E|].
  destruct (fill_ordered_leds_covers _ _ _ E) as [Hlen Hcov].
  split; [exact Hlen|]. intros x y Hx Hy.
  assert (Hxy : on_matrix x y) by (split; assumption).
  destruct (pixel_rgb_frame_8x16 fr x y Hfr Hxy) as (r & g & b & Ergb & Eraw).
  exists r, g, b. split; [exact Eraw|].
  destruct (Hcov (Z.to_nat (y * 16 + x))) as [[_ N] | (x0 & y0 & c & H0 & W & P & L)].
  - lia.
  - exfalso. apply (N x y Hxy). apply native_writes_to; done.
  - apply native_writes_to in W; [|exact H0].
    destruct H0 as [Hx0 Hy0]. unfold MATRIX_WIDTH, MATRIX_HEIGHT in *.
    assert (x0 = x ∧ y0 = y) as [-> ->] by lia.
    rewrite L. congruence.
Qed.

(** C4, on a solid red frame: [255, 0, 0] at every index. *)
Lemma solid_red_stream :
  ∃ leds,
    WLEDStreamer.fill_ordered_leds WLEDStreamer.rgb_to_wled_index
      (solid_frame 255 0 0) = Some leds ∧
    length leds = 128%nat ∧
    ∀ x y, 0 ≤ x < 16 → 0 ≤ y < 8 →
      leds !! Z.to_nat (y * 16 + x) = Some (Some [255; 0; 0]).
Proof.
  assert (Hfr : frame_8x16 (solid_frame 255 0 0)).
  { split; [reflexivity|]. vm_compute. repeat constructor. }
  destruct (native_stream_is_row_major (solid_frame 255 0 0) Hfr)
    as (leds & E & Hlen & H).
  exists leds. split; [exact E|]. split; [exact Hlen|].
  intros x y Hx Hy. destruct (H x y Hx Hy) as (r & g & b & Epx & L).
  rewrite L. unfold solid_frame in Epx.
  rewrite lookup_replicate_2 in Epx by lia.
  cbv beta iota delta [mbind option_bind] in Epx.
  rewrite lookup_replicate_2 in Epx by lia. congruence.
Defined.





(** ** Exceptions in [send_frame_to_wled] *)

(** C5: whatever the transmission does, [send_frame_to_wled] returns a
    boolean and raises nothing: [True] exactly when the array was built and
    the response to the POST has status 200, [False] (with the streamer
    untouched) when building the array or the POST raised; the streaming step
    of the main loop therefore never raises and hands the game back as it
    received it. *)
Theorem send_frame_never_raises (mapper : Z → Z → Z)
    (post : payload → outcome response) (clk : clock)
    (self : streamer) (fr : frame) :
  (∃ self' out b,
     WLEDStreamer.send_frame_to_wled mapper post clk self fr = (self', out, Return b) ∧
     (b = true ↔
        ∃ leds resp, WLEDStreamer.fill_ordered_leds mapper fr = Some leds ∧
                     post (WLEDStreamer.make_payload leds) = Return resp ∧
                     status_code resp = 200) ∧
     ((WLEDStreamer.fill_ordered_leds mapper fr = None ∨
       ∃ leds e, WLEDStreamer.fill_ordered_leds mapper fr = Some leds ∧
                 post (WLEDStreamer.make_payload leds) = Raise e) →
      b = false ∧ self' = self)) ∧
  (∀ current_time g last_wled_update,
     ∃ st' last', RaycastGame.stream_step post clk current_time fr g self last_wled_update
                  = Return (g, st', last')).
Proof.
  assert (Hsend : ∀ m, ∃ self' out b,
     WLEDStreamer.send_frame_to_wled m post clk self fr = (self', out, Return b) ∧
     (b = true ↔
        ∃ leds resp, WLEDStreamer.fill_ordered_leds m fr = Some leds ∧
                     post (WLEDStreamer.make_payload leds) = Return resp ∧
                     status_code resp = 200) ∧
     ((WLEDStreamer.fill_ordered_leds m fr = None ∨
       ∃ leds e, WLEDStreamer.fill_ordered_leds m fr = Some leds ∧
                 post (WLEDStreamer.make_payload leds) = Raise e) →
      b = false ∧ self' = self)).
  { intros m. unfold WLEDStreamer.send_frame_to_wled, WLEDStreamer.send_body.
    destruct (WLEDStreamer.fill_ordered_leds m fr) as [leds|] eqn:Efill.
    - destruct (post (WLEDStreamer.make_payload leds)) as [resp|e] eqn:Epost.
      + destruct (Rle_dec 2 (t_check clk - last_fps_print self));
          (eexists _, _, _; split; [reflexivity|]; split;
           [ split;
             [ intros Hb; exists leds, resp; apply Z.eqb_eq in Hb; done
             | intros (l0 & r0 & El & Er & Hs); apply Z.eqb_eq;
               inversion El; subst l0; rewrite Epost in Er; inversion Er; subst r0;
               exact Hs ]
           | intros [? | (l0 & e0 & El & Er)]; [discriminate|];
             inversion El; subst l0; rewrite Epost in Er; discriminate ]).
      + exists self, None, false. split; [reflexivity|]. split; [|done].
        split; [discriminate|]. intros (l & r & El & Er & _).
        inversion El; subst l. rewrite Epost in Er. discriminate.
    - exists self, None, false. split; [reflexivity|]. split; [|done].
      split; [discriminate|]. intros (l & r & El & _). discriminate. }
  split; [apply Hsend|].
  intros current_time g last. unfold RaycastGame.stream_step.
  destruct (Rle_dec RaycastGame.wled_frame_time (current_time - last)).
  - destruct (Hsend WLEDStreamer.rgb_to_wled_index) as (self' & out & b & E & _).
    rewrite E. eauto.
  - eauto.
Qed.

(** ** The grid and the truncation of positions *)

Lemma map_cell_in_grid mx my :
  0 ≤ mx < 8 → 0 ≤ my < 8 →
  RaycastGame.map_cell mx my = cell_at mx my ∧
  (cell_at mx my = Some EMPTY ∨ cell_at mx my = Some WALL).
Proof.
  intros Hx Hy.
  pose (P := λ mx my : Z,
    bool_decide (RaycastGame.map_cell mx my = cell_at mx my) &&
    (bool_decide (cell_at mx my = Some EMPTY) || bool_decide (cell_at mx my = Some WALL))).
  assert (HP : P mx my = true).
  { revert my Hy. apply (range_forallb 8 (P mx)).
    revert mx Hx. apply (range_forallb 8 (λ mx, forallb (P mx) (Py.range 8))).
    vm_compute. reflexivity. }
  unfold P in HP. apply andb_prop in HP as [H1 H2].
  apply bool_decide_eq_true in H1. split; [exact H1|].
  apply orb_prop in H2 as [H2|H2]; apply bool_decide_eq_true in H2; tauto.
Qed.

Lemma cell_at_in_grid mx my c :
  cell_at mx my = Some c → 0 ≤ mx < 8 ∧ 0 ≤ my < 8.
Proof.
  unfold cell_at. intros H.
  destruct ((0 <=? mx) && (mx <? 8) && (0 <=? my) && (my <? 8)) eqn:E; [lia|discriminate].
Qed.

Lemma cell_at_outside mx my :
  ¬ (0 ≤ mx < 8 ∧ 0 ≤ my < 8) → cell_at mx my = None.
Proof.
  intros H. unfold cell_at.
  destruct ((0 <=? mx) && (mx <? 8) && (0 <=? my) && (my <? 8)) eqn:E; [|reflexivity].
  exfalso. apply H. lia.
Qed.

(** Every EMPTY cell lies inside the border of walls. *)
Lemma open_cell_interior mx my :
  cell_at mx my = Some EMPTY → 1 ≤ mx ≤ 6 ∧ 1 ≤ my ≤ 6.
Proof.
  intros H. destruct (cell_at_in_grid _ _ _ H) as [Hx Hy].
  pose (P := λ mx my : Z,
    negb (bool_decide (cell_at mx my = Some EMPTY)) ||
    ((1 <=? mx) && (mx <=? 6) && (1 <=? my) && (my <=? 6))).
  assert (HP : P mx my = true).
  { clear H. revert my Hy. apply (range_forallb 8 (P mx)).
    revert mx Hx. apply (range_forallb 8 (λ mx, forallb (P mx) (Py.range 8))).
    vm_compute. reflexivity. }
  unfold P in HP. apply orb_prop in HP as [HP|HP]; [|lia].
  apply negb_true_iff, bool_decide_eq_false in HP. contradiction.
Qed.

(** The loop test never raises, and holds exactly on the WALL cells of the
    grid. *)
Lemma hits_wall_spec mx my :
  RaycastGame.hits_wall mx my = Some (bool_decide (cell_at mx my = Some WALL)).
Proof.
  unfold RaycastGame.hits_wall.
  change (Z.of_nat (length RaycastGame.map)) with 8.
  destruct ((0 <=? my) && (my <? 8)) eqn:Ey.
  - change (Py.getitem RaycastGame.map 0) with (Some [1;1;1;1;1;1;1;1]).
    cbv beta iota delta [mbind option_bind].
    change (Z.of_nat (length [1;1;1;1;1;1;1;1])) with 8.
    destruct ((0 <=? mx) && (mx <? 8)) eqn:Ex.
    + destruct (map_cell_in_grid mx my) as [E [C|C]]; try lia;
        rewrite E, C; reflexivity.
    + rewrite cell_at_outside by lia. reflexivity.
  - rewrite cell_at_outside by lia. reflexivity.
Qed.

Lemma int_floor r : (0 <= r)%R → Py.int r = Zfloor r.
Proof. intros H. unfold Py.int. destruct (Rle_dec 0 r); [reflexivity | contradiction]. Qed.

(** [int(r)] for a position between two grid lines. *)
Lemma int_range (r : R) (a b : Z) :
  0 ≤ a → (IZR a <= r < IZR b)%R → a ≤ Py.int r < b.
Proof.
  intros Ha [H1 H2].
  assert (0 <= r)%R by (apply (IZR_le 0 a) in Ha; lra).
  rewrite int_floor by assumption.
  split; [apply Zfloor_lub; exact H1|].
  apply lt_IZR. pose proof (Zfloor_bound r). lra.
Qed.

Lemma int_eq (r : R) (z : Z) :
  0 ≤ z → (IZR z <= r < IZR z + 1)%R → Py.int r = z.
Proof.
  intros Hz H. assert (z ≤ Py.int r < z + 1); [|lia].
  apply int_range; [exact Hz|]. rewrite plus_IZR. exact H.
Qed.

Lemma int_positive_bounds (r : R) :
  1 ≤ Py.int r → (IZR (Py.int r) <= r < IZR (Py.int r) + 1)%R.
Proof.
  unfold Py.int. destruct (Rle_dec 0 r) as [Hr|Hr]; intros H.
  - apply Zfloor_bound.
  - exfalso. pose proof (Zceil_bound r) as [Hc _].
    apply (IZR_le 1) in H. lra.
Qed.

(** ** The marching loop of [cast_ray] *)

Lemma cast_ray_loop_S n self dx dy rx ry :
  RaycastGame.cast_ray_loop (S n) self dx dy rx ry =
  RaycastGame.hits_wall (Py.int (rx + dx)) (Py.int (ry + dy)) ≫= λ hit : bool,
    if hit then
      Some (sqrt ((rx + dx - RaycastGame.player_x self) ^ 2 +
                  (ry + dy - RaycastGame.player_y self) ^ 2)%R,
            (Py.int (rx + dx) + Py.int (ry + dy)) `mod` 2)
    else RaycastGame.cast_ray_loop n self dx dy (rx + dx) (ry + dy).
Proof. reflexivity. Qed.

(** The accumulated position after [j] additions of the step vector. *)
Lemma ray_point_step self angle j :
  ((ray_point self angle j).1 + cos angle * 0.02 = (ray_point self angle (S j)).1 ∧
   (ray_point self angle j).2 + sin angle * 0.02 = (ray_point self angle (S j)).2)%R.
Proof. unfold ray_point. cbn [fst snd]. rewrite S_INR. split; ring. Qed.

Lemma ray_point_0 self angle :
  (ray_point self angle 0).1 = RaycastGame.player_x self ∧
  (ray_point self angle 0).2 = RaycastGame.player_y self.
Proof. unfold ray_point. cbn [fst snd INR]. split; ring. Qed.

Lemma cast_ray_loop_spec self angle n : ∀ j,
  (∃ k, (j < k ≤ j + n)%nat ∧ hit_at self angle k ∧
        (∀ i, (j < i < k)%nat → ¬ hit_at self angle i) ∧
        RaycastGame.cast_ray_loop n self (cos angle * 0.02) (sin angle * 0.02)
          (ray_point self angle j).1 (ray_point self angle j).2
        = Some (distance_to self (ray_point self angle k),
                ((ray_cell self angle k).1 + (ray_cell self angle k).2) `mod` 2)) ∨
  ((∀ i, (j < i ≤ j + n)%nat → ¬ hit_at self angle i) ∧
   RaycastGame.cast_ray_loop n self (cos angle * 0.02) (sin angle * 0.02)
     (ray_point self angle j).1 (ray_point self angle j).2 = Some (100%R, 0)).
Proof.
  induction n as [|n IH]; intros j.
  - right. split; [intros i Hi; lia | reflexivity].
  - rewrite cast_ray_loop_S.
    destruct (ray_point_step self angle j) as [-> ->].
    rewrite hits_wall_spec.
    change (cell_at (Py.int (ray_point self angle (S j)).1)
                    (Py.int (ray_point self angle (S j)).2) = Some WALL)
      with (hit_at self angle (S j)).
    cbv beta iota delta [mbind option_bind].
    case_bool_decide as Hhit.
    + left. exists (S j). split; [lia|]. split; [exact Hhit|].
      split; [intros i Hi; lia | reflexivity].
    + destruct (IH (S j)) as [(k & Hk & Hh & Hfirst & E) | [Hnone E]].
      * left. exists k. split; [lia|]. split; [exact Hh|]. split; [|exact E].
        intros i Hi. destruct (decide (i = S j)) as [->|]; [exact Hhit|].
        apply Hfirst. lia.
      * right. split; [|exact E].
        intros i Hi. destruct (decide (i = S j)) as [->|]; [exact Hhit|].
        apply Hnone. lia.
Qed.

(** [cast_ray] always returns: the first of its 200 steps that lands in a WALL
    cell decides the result, and without one the result is [(100, 0)]. *)
Lemma cast_ray_spec self angle :
  (∃ k, first_hit self angle k ∧
        RaycastGame.cast_ray self angle
        = Some (distance_to self (ray_point self angle k),
                ((ray_cell self angle k).1 + (ray_cell self angle k).2) `mod` 2)) ∨
  (no_hit self angle ∧ RaycastGame.cast_ray self angle = Some (100%R, 0)).
Proof.
  unfold RaycastGame.cast_ray. cbv zeta.
  destruct (ray_point_0 self angle) as [E1 E2].
  destruct (cast_ray_loop_spec self angle 200 0) as [(k & Hk & Hh & Hfirst & E) | [Hnone E]];
    rewrite E1, E2 in E.
  - left. exists k. split; [|exact E].
    split; [lia|]. split; [exact Hh|]. intros i Hi. apply Hfirst. lia.
  - right. split; [|exact E]. intros i Hi. apply Hnone. lia.
Qed.

Lemma cos_sin_unit (a : R) : (cos a * cos a + sin a * sin a = 1)%R.
Proof. pose proof (sin2_cos2 a) as H. unfold Rsqr in H. lra. Qed.

(** The step vector has length 0.02. *)
Lemma step_length (a : R) :
  sqrt ((cos a * 0.02) ^ 2 + (sin a * 0.02) ^ 2)%R = 0.02%R.
Proof.
  replace ((cos a * 0.02) ^ 2 + (sin a * 0.02) ^ 2)%R
    with (0.02 ^ 2 * (cos a * cos a + sin a * sin a))%R by ring.
  rewrite cos_sin_unit, Rmult_1_r. apply sqrt_pow2. lra.
Qed.

(** The steps are collinear: after [k] of them the ray is [0.02 * k] away. *)
Lemma distance_after_steps self angle k :
  distance_to self (ray_point self angle k) = (0.02 * INR k)%R.
Proof.
  unfold distance_to, ray_point. cbn [fst snd].
  replace ((RaycastGame.player_x self + INR k * (cos angle * 0.02)
            - RaycastGame.player_x self) ^ 2 +
           (RaycastGame.player_y self + INR k * (sin angle * 0.02)
            - RaycastGame.player_y self) ^ 2)%R
    with ((0.02 * INR k) ^ 2 * (cos angle * cos angle + sin angle * sin angle))%R by ring.
  rewrite cos_sin_unit, Rmult_1_r. apply sqrt_pow2.
  pose proof (pos_INR k). lra.
Qed.

Lemma first_hit_unique self angle k k' :
  first_hit self angle k → first_hit self angle k' → k = k'.
Proof.
  intros (Hk & Hh & Hf) (Hk' & Hh' & Hf').
  destruct (lt_eq_lt_dec k k') as [[Hlt | ->] | Hlt]; [|reflexivity|].
  - destruct (Hf' k); [lia | exact Hh].
  - destruct (Hf k'); [lia | exact Hh'].
Qed.

Lemma cast_ray_first_hit self angle k :
  first_hit self angle k →
  RaycastGame.cast_ray self angle
  = Some ((0.02 * INR k)%R, ((ray_cell self angle k).1 + (ray_cell self angle k).2) `mod` 2).
Proof.
  intros Hk. destruct (cast_ray_spec self angle) as [(k' & Hk' & E) | [Hnone _]].
  - rewrite (first_hit_unique _ _ _ _ Hk Hk'), E, distance_after_steps. reflexivity.
  - destruct Hk as (Hr & Hh & _). destruct (Hnone k Hr Hh).
Qed.

Lemma cast_ray_no_hit self angle :
  no_hit self angle → RaycastGame.cast_ray self angle = Some (100%R, 0).
Proof.
  intros Hnone. destruct (cast_ray_spec self angle) as [(k & (Hr & Hh & _) & _) | [_ E]].
  - destruct (Hnone k Hr Hh).
  - exact E.
Qed.

(** [cast_ray] reads the position of the player and nothing else. *)
Lemma cast_ray_loop_position s1 s2 dx dy n :
  RaycastGame.player_x s1 = RaycastGame.player_x s2 →
  RaycastGame.player_y s1 = RaycastGame.player_y s2 →
  ∀ rx ry, RaycastGame.cast_ray_loop n s1 dx dy rx ry
           = RaycastGame.cast_ray_loop n s2 dx dy rx ry.
Proof.
  intros Ex Ey. induction n as [|n IH]; intros rx ry; [reflexivity|].
  rewrite !cast_ray_loop_S, Ex, Ey.
  destruct (RaycastGame.hits_wall _ _) as [[|]|]; cbv beta iota delta [mbind option_bind];
    [reflexivity | apply IH | reflexivity].
Qed.

Lemma cast_ray_position s1 s2 angle :
  RaycastGame.player_x s1 = RaycastGame.player_x s2 →
  RaycastGame.player_y s1 = RaycastGame.player_y s2 →
  RaycastGame.cast_ray s1 angle = RaycastGame.cast_ray s2 angle.
Proof.
  intros Ex Ey. unfold RaycastGame.cast_ray. cbv zeta. rewrite Ex, Ey.
  apply cast_ray_loop_position; assumption.
Qed.

Lemma hit_distance_bounds (k : nat) :
  (1 ≤ k ≤ 200)%nat → (0 < 0.02 * INR k <= 4)%R.
Proof.
  intros [H1 H2]. rewrite INR_IZR_INZ.
  assert (1 <= IZR (Z.of_nat k) <= 200)%R by (split; apply IZR_le; lia). lra.
Qed.

(** The march in exact real arithmetic: the step vector has length 0.02, a
    point outside the grid is no hit, and the result is that of the first
    step that lands in a WALL cell, or [(100, 0)]. *)
Lemma real_march_of_cast_ray (self : RaycastGame.game) (angle : R) :
  sqrt ((cos angle * 0.02) ^ 2 + (sin angle * 0.02) ^ 2)%R = 0.02%R ∧
  (∀ k, ¬ (0 ≤ (ray_cell self angle k).1 < 8 ∧ 0 ≤ (ray_cell self angle k).2 < 8) →
        ¬ hit_at self angle k) ∧
  ((∃ k, first_hit self angle k ∧
         RaycastGame.cast_ray self angle
         = Some (distance_to self (ray_point self angle k),
                 ((ray_cell self angle k).1 + (ray_cell self angle k).2) `mod` 2)) ∨
   (no_hit self angle ∧ RaycastGame.cast_ray self angle = Some (100%R, 0))).
Proof.
  split; [apply step_length|]. split; [|apply cast_ray_spec].
  intros k Hout Hhit. unfold hit_at in Hhit.
  rewrite cell_at_outside in Hhit by exact Hout. discriminate.
Qed.

(** ** The march of [cast_ray] on binary64 numbers *)

(** [int] succeeds exactly on the floats that are numbers. *)
Lemma int_finite64 (x : float) :
  finite64 x = true → ∃ z, Binary64.int x = Some z.
Proof.
  unfold finite64, Binary64.int. destruct (Prim2SF x); intros H; try discriminate; eauto.
Qed.

Lemma int_is_finite64 (x : float) (z : Z) :
  Binary64.int x = Some z → finite64 x = true.
Proof.
  unfold finite64, Binary64.int. destruct (Prim2SF x); intros H; try discriminate; reflexivity.
Qed.

Lemma marched_S start d k : marched start d (S k) = (marched start d k + d)%float.
Proof. reflexivity. Qed.

Section Ray64_facts.
Variables np_cos np_sin pow2 : float → float.
Variables px py angle : float.

Let c := np_cos angle.
Let s := np_sin angle.

Lemma ray_cell64_finite (k : nat) :
  ray_finite64 px py c s k → ∃ mx my, ray_cell64 px py c s k = Some (mx, my).
Proof.
  intros [Hx Hy]. destruct (int_finite64 _ Hx) as [mx Ex], (int_finite64 _ Hy) as [my Ey].
  exists mx, my. unfold ray_cell64. rewrite Ex, Ey. reflexivity.
Qed.

Lemma hit_at64_cell (k : nat) (mx my : Z) :
  ray_cell64 px py c s k = Some (mx, my) →
  (hit_at64 px py c s k ↔ cell_at mx my = Some WALL).
Proof.
  intros E. split.
  - intros (mx' & my' & E' & H). rewrite E in E'. congruence.
  - intros H. exists mx, my. split; [exact E | exact H].
Qed.

Lemma cast_ray_loop64_spec (n : nat) : ∀ j,
  (∀ i, (j < i ≤ j + n)%nat → ray_finite64 px py c s i) →
  (∃ k mx my, (j < k ≤ j + n)%nat ∧ hit_at64 px py c s k ∧
        (∀ i, (j < i < k)%nat → ¬ hit_at64 px py c s i) ∧
        ray_cell64 px py c s k = Some (mx, my) ∧
        Binary64.cast_ray_loop pow2 n px py
          (c * 0x1.47ae147ae147bp-6)%float (s * 0x1.47ae147ae147bp-6)%float
          (ray_point64 px py c s j).1 (ray_point64 px py c s j).2
        = Some (distance64 px py c s pow2 k, (mx + my) `mod` 2)) ∨
  ((∀ i, (j < i ≤ j + n)%nat → ¬ hit_at64 px py c s i) ∧
   Binary64.cast_ray_loop pow2 n px py
     (c * 0x1.47ae147ae147bp-6)%float (s * 0x1.47ae147ae147bp-6)%float
     (ray_point64 px py c s j).1 (ray_point64 px py c s j).2
   = Some (Binary64.of_int 100, 0)).
Proof.
  induction n as [|n IH]; intros j Hfin.
  - right. split; [intros i Hi; lia | reflexivity].
  - destruct (ray_cell64_finite (S j)) as (mx & my & Ecell); [apply Hfin; lia|].
    pose proof (hit_at64_cell (S j) mx my Ecell) as Hhit_iff.
    assert (Estep : Binary64.cast_ray_loop pow2 (S n) px py
          (c * 0x1.47ae147ae147bp-6)%float (s * 0x1.47ae147ae147bp-6)%float
          (ray_point64 px py c s j).1 (ray_point64 px py c s j).2
        = if bool_decide (cell_at mx my = Some WALL)
          then Some (distance64 px py c s pow2 (S j), (mx + my) `mod` 2)
          else Binary64.cast_ray_loop pow2 n px py
                 (c * 0x1.47ae147ae147bp-6)%float (s * 0x1.47ae147ae147bp-6)%float
                 (ray_point64 px py c s (S j)).1 (ray_point64 px py c s (S j)).2).
    { unfold ray_cell64 in Ecell.
      destruct (Binary64.int (ray_point64 px py c s (S j)).1) as [mx'|] eqn:Ex;
        [|discriminate].
      destruct (Binary64.int (ray_point64 px py c s (S j)).2) as [my'|] eqn:Ey;
        [|discriminate].
      cbv beta iota delta [mbind option_bind] in Ecell.
      injection Ecell as -> ->.
      unfold ray_point64 in *. cbn [fst snd] in *. rewrite !marched_S in Ex, Ey.
      cbn [Binary64.cast_ray_loop]. cbv zeta.
      rewrite Ex, Ey. cbv beta iota delta [mbind option_bind].
      rewrite hits_wall_spec. cbv beta iota delta [mbind option_bind].
      unfold distance64, ray_point64. cbn [fst snd]. rewrite !marched_S.
      reflexivity. }
    rewrite Estep. case_bool_decide as Hwall.
    + left. exists (S j), mx, my. split; [lia|]. split; [apply Hhit_iff, Hwall|].
      split; [intros i Hi; lia|]. split; [exact Ecell | reflexivity].
    + assert (Hmiss : ¬ hit_at64 px py c s (S j)) by (rewrite Hhit_iff; exact Hwall).
      destruct (IH (S j)) as [(k & kx & ky & Hk & Hh & Hfirst & Ek & E) | [Hnone E]].
      * intros i Hi. apply Hfin. lia.
      * left. exists k, kx, ky. split; [lia|]. split; [exact Hh|].
        split; [|split; [exact Ek | exact E]].
        intros i Hi. destruct (decide (i = S j)) as [->|]; [exact Hmiss|].
        apply Hfirst. lia.
      * right. split; [|exact E].
        intros i Hi. destruct (decide (i = S j)) as [->|]; [exact Hmiss|].
        apply Hnone. lia.
Qed.

End Ray64_facts.

Lemma ray_finite64_upto_spec px py c s n :
  ray_finite64_upto px py c s n = true →
  ∀ k, (1 ≤ k ≤ n)%nat → ray_finite64 px py c s k.
Proof.
  unfold ray_finite64_upto. rewrite forallb_forall. intros H k Hk.
  specialize (H k). rewrite in_seq in H.
  apply andb_prop. apply H. lia.
Qed.

Lemma hits64_spec px py c s k :
  hits64 px py c s k = true ↔ hit_at64 px py c s k.
Proof.
  unfold hits64, hit_at64.
  destruct (ray_cell64 px py c s k) as [[mx my]|].
  - rewrite bool_decide_eq_true. split.
    + intros H. exists mx, my. split; [reflexivity | exact H].
    + intros (mx' & my' & E & H). congruence.
  - split; [discriminate|]. intros (mx & my & E & _). discriminate.
Qed.

(** A first hit found by evaluation. *)
Lemma first_hit64_upto px py c s k :
  (1 <=? k)%nat && (k <=? 200)%nat && hits64 px py c s k
  && forallb (λ j, negb (hits64 px py c s j)) (seq 1 (k - 1)) = true →
  first_hit64 px py c s k.
Proof.
  rewrite !andb_true_iff, forallb_forall.
  intros [[[H1 H2] Hh] Hbefore].
  apply Nat.leb_le in H1. apply Nat.leb_le in H2.
  split; [lia|]. split; [apply hits64_spec, Hh|].
  intros j Hj Hhit. apply hits64_spec in Hhit.
  specialize (Hbefore j). rewrite in_seq in Hbefore.
  rewrite Hhit in Hbefore. discriminate Hbefore. lia.
Qed.

Lemma first_hit64_unique px py c s k k' :
  first_hit64 px py c s k → first_hit64 px py c s k' → k = k'.
Proof.
  intros (Hk & Hh & Hb) (Hk' & Hh' & Hb').
  destruct (lt_eq_lt_dec k k') as [[Hlt | ->] | Hgt]; [|reflexivity|].
  - destruct (Hb' k); [lia | exact Hh].
  - destruct (Hb k'); [lia | exact Hh'].
Qed.

(** C1: on binary64 numbers, with [np.cos], [np.sin] and [** 2] as they come
    from the libraries, and from every origin and for every angle at which the
    200 marched points are numbers (neither NaN nor infinite): [cast_ray] adds
    at each step the direction [(cos angle, sin angle)] scaled by 0.02, a
    vector that has magnitude 0.02 in exact arithmetic; it truncates the point
    of each step to cell coordinates; a point outside the grid is no hit; the
    first of the 200 steps that lands in a WALL cell decides the result, the
    distance from the origin to the point of that step and
    [(cell_x + cell_y) mod 2]; without such a step the result is [(100, 0)];
    in both cases [cast_ray] returns. *)
Theorem cast_ray_marches_on_binary64
    (np_cos np_sin pow2 : float → float) (player_x player_y angle : float) :
  (∀ k, (1 ≤ k ≤ 200)%nat →
        ray_finite64 player_x player_y (np_cos angle) (np_sin angle) k) →
  (ray_point64 player_x player_y (np_cos angle) (np_sin angle) 0 = (player_x, player_y) ∧
   ∀ k, ray_point64 player_x player_y (np_cos angle) (np_sin angle) (S k)
        = ((ray_point64 player_x player_y (np_cos angle) (np_sin angle) k).1
           + np_cos angle * 0x1.47ae147ae147bp-6,
           (ray_point64 player_x player_y (np_cos angle) (np_sin angle) k).2
           + np_sin angle * 0x1.47ae147ae147bp-6)%float) ∧
  (∀ a : R, sqrt ((cos a * 0.02) ^ 2 + (sin a * 0.02) ^ 2) = 0.02)%R ∧
  (∀ k, (1 ≤ k ≤ 200)%nat →
     ∃ mx my,
       Binary64.int (ray_point64 player_x player_y (np_cos angle) (np_sin angle) k).1
       = Some mx ∧
       Binary64.int (ray_point64 player_x player_y (np_cos angle) (np_sin angle) k).2
       = Some my ∧
       ray_cell64 player_x player_y (np_cos angle) (np_sin angle) k = Some (mx, my) ∧
       (¬ (0 ≤ mx < 8 ∧ 0 ≤ my < 8) →
        ¬ hit_at64 player_x player_y (np_cos angle) (np_sin angle) k)) ∧
  ((∃ k mx my,
      first_hit64 player_x player_y (np_cos angle) (np_sin angle) k ∧
      ray_cell64 player_x player_y (np_cos angle) (np_sin angle) k = Some (mx, my) ∧
      Binary64.cast_ray np_cos np_sin pow2 player_x player_y angle
      = Some (distance64 player_x player_y (np_cos angle) (np_sin angle) pow2 k,
              (mx + my) `mod` 2)) ∨
   (no_hit64 player_x player_y (np_cos angle) (np_sin angle) ∧
    Binary64.cast_ray np_cos np_sin pow2 player_x player_y angle
    = Some (Binary64.of_int 100, 0))).
Proof.
  intros Hfin. split; [split; [reflexivity | intros k; reflexivity]|].
  split; [exact step_length|]. split.
  - intros k Hk.
    destruct (ray_cell64_finite np_cos np_sin player_x player_y angle k (Hfin k Hk))
      as (mx & my & Ecell).
    exists mx, my. pose proof Ecell as Ecell'. unfold ray_cell64 in Ecell'.
    destruct (Binary64.int
                (ray_point64 player_x player_y (np_cos angle) (np_sin angle) k).1)
      as [mx'|]; [|discriminate].
    destruct (Binary64.int
                (ray_point64 player_x player_y (np_cos angle) (np_sin angle) k).2)
      as [my'|]; [|discriminate].
    cbv beta iota delta [mbind option_bind] in Ecell'. injection Ecell' as -> ->.
    split; [reflexivity|]. split; [reflexivity|]. split; [exact Ecell|].
    intros Hout Hhit.
    apply (hit_at64_cell np_cos np_sin player_x player_y angle k mx my Ecell) in Hhit.
    rewrite cell_at_outside in Hhit by exact Hout. discriminate.
  - unfold Binary64.cast_ray. cbv zeta.
    destruct (cast_ray_loop64_spec np_cos np_sin pow2 player_x player_y angle 200 0)
      as [(k & mx & my & Hk & Hh & Hfirst & Ecell & E) | [Hnone E]].
    + intros i Hi. apply Hfin. lia.
    + left. exists k, mx, my. split; [|split; [exact Ecell | exact E]].
      split; [lia|]. split; [exact Hh|]. intros i Hi. apply Hfirst. lia.
    + right. split; [|exact E]. intros i Hi. apply Hnone. lia.
Qed.

(** C1 at the start position (3.5, 3.5) and angle 0, where [np.cos] gives 1
    and [np.sin] gives 0, with the rounded product for [** 2]: the 200 marched
    points are numbers, step 175 lands in the EMPTY cell (6, 3), step 176 is
    the first in a WALL cell, (7, 3), and [cast_ray] returns
    (3.5199999999999356, 0). *)
Lemma cast_ray_from_start_on_binary64 :
  ray_finite64_upto 3.5 3.5 1 0 200 = true ∧
  ray_cell64 3.5 3.5 1 0 175 = Some (6, 3) ∧
  ray_cell64 3.5 3.5 1 0 176 = Some (7, 3) ∧
  first_hit64 3.5 3.5 1 0 176 ∧
  Binary64.cast_ray (λ _, 1%float) (λ _, 0%float) square64 3.5 3.5 0
  = Some (0x1.c28f5c28f5b98p+1%float, 0).
Proof.
  assert (Hfin : ray_finite64_upto 3.5 3.5 1 0 200 = true) by (vm_compute; reflexivity).
  assert (Hfirst : first_hit64 3.5 3.5 1 0 176).
  { apply first_hit64_upto. vm_compute; reflexivity. }
  split; [exact Hfin|]. split; [vm_compute; reflexivity|].
  split; [vm_compute; reflexivity|]. split; [exact Hfirst|].
  destruct (cast_ray_marches_on_binary64 (λ _, 1%float) (λ _, 0%float) square64
              3.5 3.5 0 (ray_finite64_upto_spec 3.5 3.5 1 0 200 Hfin))
    as (_ & _ & _ & [(k & mx & my & Hk & Ecell & E) | [Hnone E]]).
  - rewrite (first_hit64_unique _ _ _ _ _ _ Hk Hfirst) in Ecell, E.
    rewrite E. vm_compute in Ecell. injection Ecell as <- <-.
    vm_compute. reflexivity.
  - destruct (Hnone 176%nat); [lia | apply Hfirst].
Defined.

(** The same march ten backward moves from the start, at
    (3.0000000000000018, 3.5): the 200 steps end at 6.9999999999999387, short
    of the wall, and [cast_ray] returns (100, 0). *)
Lemma cast_ray_short_of_the_wall_on_binary64 :
  Nat.iter 10 (λ x, (x - 1 * 0x1.999999999999ap-5)%float) 3.5%float
  = 0x1.8000000000004p+1%float ∧
  (ray_point64 0x1.8000000000004p+1 3.5 1 0 200).1 = 0x1.bffffffffffbbp+2%float ∧
  ray_cell64 0x1.8000000000004p+1 3.5 1 0 200 = Some (6, 3) ∧
  Binary64.cast_ray (λ _, 1%float) (λ _, 0%float) square64 0x1.8000000000004p+1 3.5 0
  = Some (Binary64.of_int 100, 0).
Proof. repeat split; vm_compute; reflexivity. Qed.

(** C9: over the reals, [cast_ray] returns [(100, 0)] or, when step [k] is the
    first to land in a wall, exactly [0.02 * k]; a hit distance lies in (0, 4]
    and below 100; so the test [dist < 10] of [shoot] holds exactly when one
    of the 200 steps of the centre ray landed in a wall, and [shoot] appends
    its impact exactly then. *)
Theorem hit_distance_is_step_count (self : RaycastGame.game) (angle : R) :
  (∃ d t, RaycastGame.cast_ray self angle = Some (d, t) ∧
     ((d = 100%R ∧ t = 0 ∧ no_hit self angle) ∨
      (∃ k, first_hit self angle k ∧ d = (0.02 * INR k)%R ∧
            (0 < d <= 4)%R ∧ (d < 100)%R)) ∧
     ((d < 10)%R ↔ ∃ k, (1 ≤ k ≤ 200)%nat ∧ hit_at self angle k)) ∧
  (∃ self', RaycastGame.shoot self = Some self' ∧
     ((∃ k, (1 ≤ k ≤ 200)%nat ∧ hit_at self (RaycastGame.player_angle self) k) ↔
      RaycastGame.bullet_impacts self'
      = RaycastGame.bullet_impacts self ++ [(GAME_WIDTH `div` 2, 10)])).
Proof.
  assert (Hcast : ∀ a, ∃ d t, RaycastGame.cast_ray self a = Some (d, t) ∧
     ((d = 100%R ∧ t = 0 ∧ no_hit self a) ∨
      (∃ k, first_hit self a k ∧ d = (0.02 * INR k)%R ∧
            (0 < d <= 4)%R ∧ (d < 100)%R)) ∧
     ((d < 10)%R ↔ ∃ k, (1 ≤ k ≤ 200)%nat ∧ hit_at self a k)).
  { intros a. destruct (cast_ray_spec self a) as [(k & Hk & E) | [Hnone E]].
    - rewrite distance_after_steps in E. eexists _, _. split; [exact E|].
      pose proof (hit_distance_bounds k (proj1 Hk)) as Hb.
      split; [right; exists k; split; [exact Hk|]; split; [reflexivity|]; split; lra|].
      split; [intros _; exists k; split; apply Hk | intros _; lra].
    - eexists _, _. split; [exact E|]. split; [left; done|].
      split; [lra|]. intros (k & Hr & Hh). destruct (Hnone k Hr Hh). }
  split; [apply Hcast|].
  destruct (Hcast (RaycastGame.player_angle self)) as (d & t & E & _ & Hlt).
  unfold RaycastGame.shoot. cbv zeta. cbn [RaycastGame.player_angle].
  rewrite (cast_ray_position _ self) by reflexivity. rewrite E.
  cbv beta iota delta [mbind option_bind]. cbn [fst].
  destruct (Rlt_dec d 10) as [Hd|Hd]; eexists; (split; [reflexivity|]);
    cbn [RaycastGame.bullet_impacts].
  - split; [reflexivity | intros _; apply Hlt, Hd].
  - split; [intros H; destruct (Hd (proj2 Hlt H))|].
    intros H. apply (f_equal length) in H. rewrite length_app in H. simpl in H. lia.
Qed.

(** ** [shoot] and the stages of [handle_input] *)

Lemma cast_ray_total self angle :
  ∃ d t, RaycastGame.cast_ray self angle = Some (d, t).
Proof.
  destruct (cast_ray_spec self angle) as [(k & _ & E) | [_ E]]; eauto.
Qed.

Lemma shoot_spec self :
  ∃ d t, RaycastGame.cast_ray self (RaycastGame.player_angle self) = Some (d, t) ∧
         RaycastGame.shoot self = Some (after_shot self (bool_decide (d < 10)%R)).
Proof.
  destruct (cast_ray_total self (RaycastGame.player_angle self)) as (d & t & E).
  exists d, t. split; [exact E|].
  unfold RaycastGame.shoot. cbv zeta. cbn [RaycastGame.player_angle].
  rewrite (cast_ray_position _ self) by reflexivity. rewrite E.
  cbv beta iota delta [mbind option_bind]. cbn [fst].
  unfold after_shot. destruct (Rlt_dec d 10) as [Hd|Hd].
  - rewrite bool_decide_eq_true_2 by exact Hd. reflexivity.
  - rewrite bool_decide_eq_false_2 by exact Hd.
    cbn [RaycastGame.bullet_impacts RaycastGame.player_x RaycastGame.player_y
         RaycastGame.player_angle RaycastGame.shooting
         RaycastGame.muzzle_flash_timer RaycastGame.shot_cooldown].
    rewrite app_nil_r. reflexivity.
Qed.

Lemma handle_input_stages pressed self :
  RaycastGame.handle_input pressed self =
  move_block (RaycastGame.K_UP pressed) Forward (after_rotation pressed self) ≫= λ s1,
  move_block (RaycastGame.K_DOWN pressed) Backward s1 ≫= λ s2,
  move_block (RaycastGame.K_a pressed) StrafeLeft s2 ≫= λ s3,
  move_block (RaycastGame.K_d pressed) StrafeRight s3 ≫= λ s4,
  fire_block pressed s4.
Proof. reflexivity. Qed.

Lemma same_timers_refl s : same_timers s s.
Proof. unfold same_timers. tauto. Qed.

Lemma same_timers_trans s1 s2 s3 :
  same_timers s1 s2 → same_timers s2 s3 → same_timers s1 s3.
Proof. unfold same_timers. intros (?&?&?&?) (?&?&?&?). repeat split; congruence. Qed.

Lemma after_rotation_position pressed self :
  RaycastGame.player_x (after_rotation pressed self) = RaycastGame.player_x self ∧
  RaycastGame.player_y (after_rotation pressed self) = RaycastGame.player_y self ∧
  same_timers self (after_rotation pressed self).
Proof.
  unfold after_rotation, same_timers.
  destruct (RaycastGame.K_LEFT pressed), (RaycastGame.K_RIGHT pressed); simpl; tauto.
Qed.

(** A movement block towards a WALL cell changes nothing. *)
Lemma move_to_wall self nx ny :
  cell_of nx ny = Some WALL → RaycastGame.move_to self nx ny = Some self.
Proof.
  intros H. unfold cell_of in H. destruct (cell_at_in_grid _ _ _ H) as [Hx Hy].
  unfold RaycastGame.move_to.
  rewrite (proj1 (map_cell_in_grid _ _ Hx Hy)), H. reflexivity.
Qed.

(** A movement block towards a cell of the grid commits on EMPTY and is
    rejected on WALL. *)
Lemma move_to_in_grid self nx ny :
  0 ≤ Py.int nx < 8 → 0 ≤ Py.int ny < 8 →
  (cell_of nx ny = Some EMPTY ∧
   RaycastGame.move_to self nx ny = Some (RaycastGame.set_position self nx ny)) ∨
  (cell_of nx ny = Some WALL ∧ RaycastGame.move_to self nx ny = Some self).
Proof.
  intros Hx Hy. unfold RaycastGame.move_to, cell_of.
  destruct (map_cell_in_grid _ _ Hx Hy) as [E [C|C]]; rewrite E, C; [left|right];
    (split; reflexivity).
Qed.

Lemma open_cell_position self :
  in_open_cell self →
  (1 <= RaycastGame.player_x self < 7 ∧ 1 <= RaycastGame.player_y self < 7)%R.
Proof.
  intros H. apply open_cell_interior in H as [[Hx1 Hx2] [Hy1 Hy2]].
  pose proof (int_positive_bounds _ Hx1). pose proof (int_positive_bounds _ Hy1).
  apply IZR_le in Hx1, Hx2, Hy1, Hy2. lra.
Qed.

Lemma near_in_grid (r d : R) :
  (1 <= r < 7)%R → (-1 <= d <= 1)%R →
  0 ≤ Py.int (r + d * RaycastGame.move_speed) < 8.
Proof.
  intros Hr Hd. apply int_range; [lia|]. unfold RaycastGame.move_speed. lra.
Qed.

Lemma near_in_grid_minus (r d : R) :
  (1 <= r < 7)%R → (-1 <= d <= 1)%R →
  0 ≤ Py.int (r - d * RaycastGame.move_speed) < 8.
Proof.
  intros Hr Hd. apply int_range; [lia|]. unfold RaycastGame.move_speed. lra.
Qed.

(** From an EMPTY cell every proposed position is in the grid. *)
Lemma proposed_in_grid m self :
  in_open_cell self →
  0 ≤ Py.int (proposed m self).1 < 8 ∧ 0 ≤ Py.int (proposed m self).2 < 8.
Proof.
  intros H. apply open_cell_position in H as [Hx Hy].
  destruct m; unfold proposed; cbn [fst snd]; split;
    first [apply near_in_grid | apply near_in_grid_minus];
    first [assumption | apply COS_bound | apply SIN_bound].
Qed.

Lemma set_position_open self nx ny :
  cell_of nx ny = Some EMPTY → in_open_cell (RaycastGame.set_position self nx ny).
Proof. intros H. exact H. Qed.

Lemma set_position_timers self nx ny :
  same_timers self (RaycastGame.set_position self nx ny).
Proof. unfold same_timers. simpl. tauto. Qed.

(** A movement block keeps the player in an EMPTY cell and never raises
    there. *)
Lemma move_block_open pressed m self :
  in_open_cell self →
  ∃ self', move_block pressed m self = Some self' ∧ in_open_cell self' ∧
           same_timers self self'.
Proof.
  intros H. unfold move_block. destruct pressed.
  - destruct (proposed_in_grid m self H) as [Hx Hy].
    destruct (move_to_in_grid self _ _ Hx Hy) as [[C E] | [C E]]; rewrite E.
    + eexists. split; [reflexivity|]. split; [apply set_position_open, C|].
      apply set_position_timers.
    + exists self. split; [reflexivity|]. split; [exact H | apply same_timers_refl].
  - exists self. split; [reflexivity|]. split; [exact H | apply same_timers_refl].
Qed.

Lemma fire_block_spec pressed self :
  ∃ self', fire_block pressed self = Some self' ∧
    RaycastGame.player_x self' = RaycastGame.player_x self ∧
    RaycastGame.player_y self' = RaycastGame.player_y self ∧
    ((RaycastGame.K_SPACE pressed = true ∧ RaycastGame.shot_cooldown self = 0 ∧
      ∃ d t, RaycastGame.cast_ray self (RaycastGame.player_angle self) = Some (d, t) ∧
             self' = after_shot self (bool_decide (d < 10)%R)) ∨
     (¬ (RaycastGame.K_SPACE pressed = true ∧ RaycastGame.shot_cooldown self = 0) ∧
      self' = self)).
Proof.
  unfold fire_block.
  destruct (RaycastGame.K_SPACE pressed && (RaycastGame.shot_cooldown self =? 0)) eqn:E.
  - destruct (shoot_spec self) as (d & t & Ec & Es). rewrite Es.
    eexists. split; [reflexivity|]. split; [reflexivity|]. split; [reflexivity|].
    left. apply andb_prop in E as [E1 E2]. apply Z.eqb_eq in E2.
    split; [exact E1|]. split; [exact E2|]. exists d, t. done.
  - exists self. split; [reflexivity|]. split; [reflexivity|]. split; [reflexivity|].
    right. split; [|reflexivity]. intros [E1 E2]. rewrite E1, E2 in E. discriminate.
Qed.

(** [handle_input] from an EMPTY cell: it returns, the player is still in an
    EMPTY cell, and the timers and impacts are those the shooting block
    leaves. *)
Lemma handle_input_open pressed self :
  in_open_cell self →
  ∃ s4 self', RaycastGame.handle_input pressed self = Some self' ∧
    in_open_cell s4 ∧ same_timers self s4 ∧
    fire_block pressed s4 = Some self' ∧ in_open_cell self'.
Proof.
  intros H. rewrite handle_input_stages.
  destruct (after_rotation_position pressed self) as (Ex & Ey & T0).
  assert (H0 : in_open_cell (after_rotation pressed self)).
  { unfold in_open_cell. rewrite Ex, Ey. exact H. }
  destruct (move_block_open (RaycastGame.K_UP pressed) Forward _ H0) as (s1 & E1 & H1 & T1).
  destruct (move_block_open (RaycastGame.K_DOWN pressed) Backward _ H1) as (s2 & E2 & H2 & T2).
  destruct (move_block_open (RaycastGame.K_a pressed) StrafeLeft _ H2) as (s3 & E3 & H3 & T3).
  destruct (move_block_open (RaycastGame.K_d pressed) StrafeRight _ H3) as (s4 & E4 & H4 & T4).
  rewrite E1. cbv beta iota delta [mbind option_bind].
  rewrite E2. cbv beta iota delta [mbind option_bind].
  rewrite E3. cbv beta iota delta [mbind option_bind].
  rewrite E4. cbv beta iota delta [mbind option_bind].
  destruct (fire_block_spec pressed s4) as (self' & Ef & Px & Py & _).
  exists s4, self'. split; [exact Ef|]. split; [exact H4|].
  split; [eauto using same_timers_trans|]. split; [exact Ef|].
  unfold in_open_cell. rewrite Px, Py. exact H4.
Qed.

Lemma int_3_5 : Py.int 3.5 = 3.
Proof. apply int_eq; [lia | lra]. Qed.

Lemma init_open : in_open_cell RaycastGame.init.
Proof.
  unfold in_open_cell, cell_of. cbn [RaycastGame.init RaycastGame.player_x RaycastGame.player_y].
  rewrite int_3_5. reflexivity.
Qed.

Lemma update_timers_position self :
  RaycastGame.player_x (RaycastGame.update_timers self) = RaycastGame.player_x self ∧
  RaycastGame.player_y (RaycastGame.update_timers self) = RaycastGame.player_y self.
Proof. split; reflexivity. Qed.

(** The player of a reachable state stands in an EMPTY cell. *)
Lemma reachable_open self : RaycastGame.reachable self → in_open_cell self.
Proof.
  induction 1 as [|pressed s s' _ IH E|s _ IH].
  - apply init_open.
  - destruct (handle_input_open pressed s IH) as (s4 & s'' & E' & _ & _ & _ & H').
    rewrite E in E'. inversion E'; subst. exact H'.
  - exact IH.
Qed.

Lemma move_block_blocked pressed m s :
  (pressed = true → cell_of (proposed m s).1 (proposed m s).2 = Some WALL) →
  move_block pressed m s = Some s.
Proof.
  intros H. unfold move_block. destruct pressed; [|reflexivity].
  apply move_to_wall, H. reflexivity.
Qed.

(** C3: a movement or strafe block whose proposed position truncates to a
    WALL cell leaves the state as it was, so [handle_input] leaves the
    position unchanged when every requested move is towards a wall; from an
    EMPTY cell a move is committed exactly when its destination cell is EMPTY;
    and in every state reachable from the start at (3.5, 3.5) the player
    stands in an EMPTY cell and [handle_input] returns. *)
Theorem wall_moves_are_rejected :
  (∀ self new_x new_y,
     cell_of new_x new_y = Some WALL →
     RaycastGame.move_to self new_x new_y = Some self) ∧
  (∀ pressed self,
     (∀ m, requested pressed m = true →
           cell_of (proposed m (after_rotation pressed self)).1
                   (proposed m (after_rotation pressed self)).2 = Some WALL) →
     ∃ self', RaycastGame.handle_input pressed self = Some self' ∧
              RaycastGame.player_x self' = RaycastGame.player_x self ∧
              RaycastGame.player_y self' = RaycastGame.player_y self) ∧
  (∀ self m,
     in_open_cell self →
     (cell_of (proposed m self).1 (proposed m self).2 = Some EMPTY ∧
      RaycastGame.move_to self (proposed m self).1 (proposed m self).2
      = Some (RaycastGame.set_position self (proposed m self).1 (proposed m self).2)) ∨
     (cell_of (proposed m self).1 (proposed m self).2 = Some WALL ∧
      RaycastGame.move_to self (proposed m self).1 (proposed m self).2 = Some self)) ∧
  (∀ self, RaycastGame.reachable self → in_open_cell self) ∧
  (∀ pressed self, RaycastGame.reachable self →
     ∃ self', RaycastGame.handle_input pressed self = Some self').
Proof.
  split; [exact move_to_wall|]. split; [|split; [|split]].
  - intros pressed self Hblocked. rewrite handle_input_stages.
    set (s0 := after_rotation pressed self) in *.
    rewrite (move_block_blocked _ Forward s0) by apply (Hblocked Forward).
    cbv beta iota delta [mbind option_bind].
    rewrite (move_block_blocked _ Backward s0) by apply (Hblocked Backward).
    cbv beta iota delta [mbind option_bind].
    rewrite (move_block_blocked _ StrafeLeft s0) by apply (Hblocked StrafeLeft).
    cbv beta iota delta [mbind option_bind].
    rewrite (move_block_blocked _ StrafeRight s0) by apply (Hblocked StrafeRight).
    cbv beta iota delta [mbind option_bind].
    destruct (fire_block_spec pressed s0) as (self' & Ef & Px & Py & _).
    destruct (after_rotation_position pressed self) as (Ex & Ey & _).
    exists self'. split; [exact Ef|]. subst s0. split; congruence.
  - intros self m H. destruct (proposed_in_grid m self H) as [Hx Hy].
    apply move_to_in_grid; assumption.
  - exact reachable_open.
  - intros pressed self H. apply reachable_open in H.
    destruct (handle_input_open pressed self H) as (_ & self' & E & _). eauto.
Qed.

Lemma forward_from_east_wall :
  cell_of (proposed Forward at_east_wall).1 (proposed Forward at_east_wall).2 = Some WALL.
Proof.
  unfold proposed, at_east_wall, cell_of, RaycastGame.move_speed.
  cbn [fst snd RaycastGame.set_position RaycastGame.init
       RaycastGame.player_x RaycastGame.player_y RaycastGame.player_angle].
  rewrite cos_0, sin_0.
  rewrite (int_eq _ 7) by (try lia; lra). rewrite (int_eq _ 3) by (try lia; lra).
  reflexivity.
Qed.

(** C3 next to the east wall: the forward move from (6.97, 3.5) at heading 0
    proposes (7.02, 3.5), a WALL cell, and the position stays (6.97, 3.5). *)
Lemma forward_into_east_wall_rejected :
  cell_of (proposed Forward at_east_wall).1 (proposed Forward at_east_wall).2 = Some WALL ∧
  RaycastGame.move_to at_east_wall
    (proposed Forward at_east_wall).1 (proposed Forward at_east_wall).2
  = Some at_east_wall ∧
  ∃ self', RaycastGame.handle_input only_up at_east_wall = Some self' ∧
           RaycastGame.player_x self' = 6.97%R ∧ RaycastGame.player_y self' = 3.5%R.
Proof.
  split; [exact forward_from_east_wall|]. split.
  - apply (proj1 wall_moves_are_rejected). exact forward_from_east_wall.
  - apply (proj1 (proj2 wall_moves_are_rejected) only_up at_east_wall).
    intros m Hm. destruct m; try discriminate. exact forward_from_east_wall.
Defined.

(** ** Timers and impacts *)

Lemma filter_all {A} (P : A → Prop) `{∀ x, Decision (P x)} (l : list A) :
  Forall P l → filter P l = l.
Proof.
  induction 1 as [|x l Hx _ IH]; [reflexivity|].
  rewrite filter_cons_True by exact Hx. rewrite IH. reflexivity.
Qed.

Lemma age_impacts_bounded (l : list (Z * Z)) :
  Forall (λ imp, 1 ≤ imp.2 ≤ 10) l →
  Forall (λ imp, 1 ≤ imp.2 ≤ 10) (RaycastGame.age_impacts l).
Proof.
  intros H. unfold RaycastGame.age_impacts. apply Forall_forall.
  intros imp Himp. apply list_elem_of_filter in Himp as [Hpos Himp].
  apply list_elem_of_fmap in Himp as (old & -> & Hold).
  rewrite Forall_forall in H. specialize (H old Hold).
  unfold RaycastGame.age_impact in *. destruct (0 <? old.2) eqn:E; simpl in *; lia.
Qed.

(** On positive lifetimes the loop of [update_timers] decrements each one. *)
Lemma age_impacts_decrements (l : list (Z * Z)) :
  Forall (λ imp, 1 ≤ imp.2 ≤ 10) l →
  RaycastGame.age_impacts l
  = filter (λ imp, 0 < imp.2) ((λ imp, (imp.1, imp.2 - 1)) <$> l).
Proof.
  intros H. unfold RaycastGame.age_impacts. f_equal.
  apply Forall_fmap_ext_1. eapply Forall_impl; [exact H|].
  intros imp Hi. simpl in Hi. unfold RaycastGame.age_impact.
  destruct (0 <? imp.2) eqn:E; [reflexivity | lia].
Qed.

Lemma after_shot_impacts s hit :
  Forall (λ imp, 1 ≤ imp.2 ≤ 10) (RaycastGame.bullet_impacts s) →
  Forall (λ imp, 1 ≤ imp.2 ≤ 10) (RaycastGame.bullet_impacts (after_shot s hit)).
Proof.
  intros H. unfold after_shot. cbn [RaycastGame.bullet_impacts].
  apply Forall_app. split; [exact H|].
  destruct hit; [|constructor]. constructor; [simpl; lia | constructor].
Qed.

(** Every impact of a reachable state has between 1 and 10 ticks left. *)
Lemma reachable_impacts self :
  RaycastGame.reachable self →
  Forall (λ imp, 1 ≤ imp.2 ≤ 10) (RaycastGame.bullet_impacts self).
Proof.
  induction 1 as [|pressed s s' Hs IH E|s _ IH].
  - constructor.
  - destruct (handle_input_open pressed s (reachable_open s Hs))
      as (s4 & s'' & E' & _ & (_ & _ & _ & Ti) & Ef & _).
    rewrite E in E'. inversion E'; subst s''. rewrite <- Ti in IH.
    destruct (fire_block_spec pressed s4) as (s5 & Ef' & _ & _ & Hcase).
    rewrite Ef in Ef'. inversion Ef'; subst s5.
    destruct Hcase as [(_ & _ & d & t & _ & ->) | [_ ->]];
      [apply after_shot_impacts, IH | exact IH].
  - apply age_impacts_bounded, IH.
Qed.

(** C10: in every reachable state each impact has a remaining lifetime between
    1 and 10, so the guard [timer > 0] of [render] passes for every impact;
    [shoot] appends only impacts of lifetime 10, and [update_timers]
    decrements every lifetime by one and keeps the impacts whose lifetime is
    still positive. *)
Theorem impact_lifetimes_bounded (self : RaycastGame.game) :
  RaycastGame.reachable self →
  Forall (λ imp, 1 ≤ imp.2 ≤ 10) (RaycastGame.bullet_impacts self) ∧
  RaycastGame.drawn_impacts self = RaycastGame.bullet_impacts self ∧
  (∃ self' new, RaycastGame.shoot self = Some self' ∧
     RaycastGame.bullet_impacts self' = RaycastGame.bullet_impacts self ++ new ∧
     Forall (λ imp, imp.2 = 10) new) ∧
  RaycastGame.bullet_impacts (RaycastGame.update_timers self)
  = filter (λ imp, 0 < imp.2)
           ((λ imp, (imp.1, imp.2 - 1)) <$> RaycastGame.bullet_impacts self) ∧
  Forall (λ imp, 1 ≤ imp.2 ≤ 10)
         (RaycastGame.bullet_impacts (RaycastGame.update_timers self)).
Proof.
  intros Hreach. pose proof (reachable_impacts self Hreach) as Hinv.
  split; [exact Hinv|]. split; [|split; [|split]].
  - unfold RaycastGame.drawn_impacts. apply filter_all.
    eapply Forall_impl; [exact Hinv|]. intros imp Hi. simpl in *. lia.
  - destruct (shoot_spec self) as (d & t & _ & E).
    eexists _, _. split; [exact E|]. split; [reflexivity|].
    destruct (bool_decide (d < 10)%R); repeat constructor.
  - apply (age_impacts_decrements _ Hinv).
  - apply (age_impacts_bounded _ Hinv).
Qed.

(** ** Rays along row 3 *)

Lemma row3_open mx : 1 ≤ mx ≤ 6 → cell_at mx 3 = Some EMPTY.
Proof.
  intros H.
  assert (mx = 1 ∨ mx = 2 ∨ mx = 3 ∨ mx = 4 ∨ mx = 5 ∨ mx = 6) as Hc by lia.
  destruct Hc as [->|[->|[->|[->|[->| ->]]]]]; reflexivity.
Qed.

(** At heading 0 the ray runs east along the row of the player. *)
Lemma ray_cell_heading_0 self k :
  ray_cell self 0 k
  = (Py.int (RaycastGame.player_x self + 0.02 * INR k), Py.int (RaycastGame.player_y self)).
Proof.
  unfold ray_cell, ray_point. cbn [fst snd]. rewrite cos_0, sin_0.
  f_equal; f_equal; ring.
Qed.

Lemma INR_between (j : nat) (a b : Z) :
  a ≤ Z.of_nat j ≤ b → (IZR a <= INR j <= IZR b)%R.
Proof. intros [H1 H2]. rewrite INR_IZR_INZ. split; apply IZR_le; lia. Qed.

(** From the start, heading 0: steps 1 to 174 stay in the EMPTY cells of row
    3, and step 175 reaches x = 7, the east wall. *)
Lemma first_hit_from_start : first_hit RaycastGame.init 0 175.
Proof.
  split; [lia|]. split.
  - unfold hit_at. rewrite ray_cell_heading_0. cbn [fst snd RaycastGame.init
      RaycastGame.player_x RaycastGame.player_y].
    rewrite int_3_5. rewrite (int_eq _ 7); [reflexivity | lia |].
    pose proof (INR_between 175 175 175 ltac:(lia)) as H. lra.
  - intros j Hj. unfold hit_at. rewrite ray_cell_heading_0. cbn [fst snd RaycastGame.init
      RaycastGame.player_x RaycastGame.player_y].
    rewrite int_3_5.
    pose proof (INR_between j 1 174 ltac:(lia)) as H.
    rewrite row3_open; [discriminate|].
    assert (3 ≤ Py.int (3.5 + 0.02 * INR j) < 7); [|lia].
    apply int_range; [lia | lra].
Qed.

(** From (1.5, 3.5), heading 0: the 200 steps end at x = 5.5, all of them in
    EMPTY cells of row 3. *)
Lemma no_hit_from_far_state : no_hit far_state 0.
Proof.
  intros j Hj. unfold hit_at. rewrite ray_cell_heading_0.
  cbn [fst snd far_state RaycastGame.set_position RaycastGame.player_x RaycastGame.player_y].
  rewrite int_3_5.
  pose proof (INR_between j 1 200 ltac:(lia)) as H.
  rewrite row3_open; [discriminate|].
  assert (1 ≤ Py.int (1.5 + 0.02 * INR j) < 6); [|lia].
  apply int_range; [lia | lra].
Qed.

Lemma handle_input_only_space self :
  RaycastGame.handle_input only_space self = fire_block only_space self.
Proof. reflexivity. Qed.

(** A fire request at the start hits the east wall 3.5 away. *)
Lemma fire_from_start :
  RaycastGame.cast_ray RaycastGame.init 0 = Some (3.5%R, 0) ∧
  RaycastGame.handle_input only_space RaycastGame.init
  = Some (after_shot RaycastGame.init true).
Proof.
  assert (E : RaycastGame.cast_ray RaycastGame.init 0 = Some (3.5%R, 0)).
  { rewrite (cast_ray_first_hit _ _ _ first_hit_from_start).
    rewrite ray_cell_heading_0. cbn [fst snd RaycastGame.init
      RaycastGame.player_x RaycastGame.player_y].
    pose proof (INR_between 175 175 175 ltac:(lia)) as H.
    rewrite int_3_5. rewrite (int_eq _ 7) by (try lia; lra).
    f_equal. f_equal. lra. }
  split; [exact E|].
  rewrite handle_input_only_space. unfold fire_block.
  change (RaycastGame.K_SPACE only_space && (RaycastGame.shot_cooldown RaycastGame.init =? 0))
    with true. cbv iota.
  destruct (shoot_spec RaycastGame.init) as (d & t & Ec & Es).
  change (RaycastGame.player_angle RaycastGame.init) with 0%R in Ec.
  rewrite E in Ec. inversion Ec; subst d t. rewrite Es.
  rewrite bool_decide_eq_true_2 by lra. reflexivity.
Qed.

(** A fire request from (1.5, 3.5) hits nothing; a second one right after it
    is not honoured. *)
Lemma fire_from_far_state :
  RaycastGame.handle_input only_space far_state = Some (after_shot far_state false) ∧
  RaycastGame.handle_input only_space (after_shot far_state false)
  = Some (after_shot far_state false).
Proof.
  split; [|reflexivity].
  rewrite handle_input_only_space. unfold fire_block.
  change (RaycastGame.K_SPACE only_space && (RaycastGame.shot_cooldown far_state =? 0))
    with true. cbv iota.
  destruct (shoot_spec far_state) as (d & t & Ec & Es).
  change (RaycastGame.player_angle far_state) with 0%R in Ec.
  rewrite (cast_ray_no_hit _ _ no_hit_from_far_state) in Ec.
  inversion Ec; subst d t. rewrite Es.
  rewrite bool_decide_eq_false_2 by lra. reflexivity.
Qed.

(** Walking backwards from the start along row 3. *)
Lemma walk_back (n : nat) :
  (n ≤ 40)%nat →
  RaycastGame.reachable (RaycastGame.set_position RaycastGame.init (3.5 - 0.05 * INR n) 3.5).
Proof.
  induction n as [|n IH]; intros Hn.
  - replace (3.5 - 0.05 * INR 0)%R with 3.5%R by (cbn [INR]; lra).
    apply RaycastGame.reach_init.
  - eapply RaycastGame.reach_input with (pressed := only_down); [apply IH; lia|].
    rewrite handle_input_stages.
    change (after_rotation only_down ?s) with s.
    change (move_block (RaycastGame.K_UP only_down) Forward ?s) with (Some s).
    cbv beta iota delta [mbind option_bind].
    unfold move_block at 1.
    change (RaycastGame.K_DOWN only_down) with true. cbv iota.
    unfold RaycastGame.move_to, proposed, RaycastGame.move_speed.
    cbn [fst snd RaycastGame.set_position RaycastGame.init
         RaycastGame.player_x RaycastGame.player_y RaycastGame.player_angle].
    rewrite cos_0, sin_0.
    pose proof (INR_between n 0 39 ltac:(lia)) as H.
    assert (Hx : 1 ≤ Py.int (3.5 - 0.05 * INR n - 1 * 0.05) < 4)
      by (apply int_range; [lia | lra]).
    assert (Hy : Py.int (3.5 - 0 * 0.05) = 3) by (apply int_eq; [lia | lra]).
    rewrite Hy.
    destruct (map_cell_in_grid (Py.int (3.5 - 0.05 * INR n - 1 * 0.05)) 3) as [Em _];
      [lia | lia |]. rewrite Em.
    rewrite row3_open by lia.
    cbv beta iota delta [mbind option_bind]. change (EMPTY =? 0) with true. cbv iota.
    change (move_block (RaycastGame.K_a only_down) StrafeLeft ?s) with (Some s).
    change (move_block (RaycastGame.K_d only_down) StrafeRight ?s) with (Some s).
    cbv beta iota delta [mbind option_bind].
    change (fire_block only_down ?s) with (Some s).
    unfold RaycastGame.set_position.
    cbn [RaycastGame.init RaycastGame.player_x RaycastGame.player_y RaycastGame.player_angle
         RaycastGame.shooting RaycastGame.muzzle_flash_timer RaycastGame.shot_cooldown
         RaycastGame.bullet_impacts].
    rewrite S_INR. do 2 f_equal; lra.
Qed.

Lemma far_state_reachable : RaycastGame.reachable far_state.
Proof.
  pose proof (walk_back 40 ltac:(lia)) as H.
  replace (3.5 - 0.05 * INR 40)%R with 1.5%R in H; [exact H|].
  pose proof (INR_between 40 40 40 ltac:(lia)) as Hb. lra.
Qed.

(** C10 after the first shot: the state [handle_input] leaves when SPACE is
    pressed at the start is reachable, its only impact has lifetime 10, passes
    the guard of [render], and has lifetime 9 after [update_timers]. *)
Lemma impact_lifetimes_after_first_shot :
  RaycastGame.reachable (after_shot RaycastGame.init true) ∧
  RaycastGame.bullet_impacts (after_shot RaycastGame.init true) = [(160, 10)] ∧
  RaycastGame.drawn_impacts (after_shot RaycastGame.init true) = [(160, 10)] ∧
  RaycastGame.bullet_impacts (RaycastGame.update_timers (after_shot RaycastGame.init true))
  = [(160, 9)].
Proof.
  assert (Hr : RaycastGame.reachable (after_shot RaycastGame.init true)).
  { eapply RaycastGame.reach_input; [apply RaycastGame.reach_init|].
    apply fire_from_start. }
  destruct (impact_lifetimes_bounded _ Hr) as (_ & Hdrawn & _ & Hnext & _).
  split; [exact Hr|]. split; [reflexivity|]. split.
  - rewrite Hdrawn. reflexivity.
  - rewrite Hnext. reflexivity.
Defined.

(** ** The cooldown window *)

Lemma update_timers_open s : in_open_cell s → in_open_cell (RaycastGame.update_timers s).
Proof. intros H. exact H. Qed.

(** While the cooldown has not run out, no call of [handle_input] fires: the
    cooldown only counts down and the impacts only age. *)
Lemma run_in_window events : ∀ s,
  in_open_cell s →
  Z.of_nat (timer_ticks events) < RaycastGame.shot_cooldown s →
  ∃ s', RaycastGame.run events s = Some s' ∧
        RaycastGame.shot_cooldown s'
        = RaycastGame.shot_cooldown s - Z.of_nat (timer_ticks events) ∧
        RaycastGame.bullet_impacts s'
        = Nat.iter (timer_ticks events) RaycastGame.age_impacts
                   (RaycastGame.bullet_impacts s) ∧
        in_open_cell s'.
Proof.
  induction events as [|[pressed|] rest IH]; intros s Hopen Hlt.
  - exists s. simpl in *. repeat split; [lia | exact Hopen].
  - cbn [timer_ticks] in *. cbn [RaycastGame.run].
    destruct (handle_input_open pressed s Hopen)
      as (s4 & s1 & E & _ & (_ & _ & Tc & Ti) & Ef & Hopen1).
    rewrite E. cbv beta iota delta [mbind option_bind].
    destruct (fire_block_spec pressed s4) as (s1' & Ef' & _ & _ & Hcase).
    rewrite Ef in Ef'. inversion Ef'; subst s1'.
    destruct Hcase as [(_ & Hzero & _) | [_ ->]]; [lia|].
    rewrite <- Tc, <- Ti. apply IH; [exact Hopen1 | lia].
  - cbn [timer_ticks] in *. cbn [RaycastGame.run].
    destruct (IH (RaycastGame.update_timers s)) as (s' & E & Hc & Hi & Ho).
    + apply update_timers_open, Hopen.
    + cbn [RaycastGame.update_timers RaycastGame.shot_cooldown].
      destruct (0 <? RaycastGame.shot_cooldown s) eqn:Epos; lia.
    + exists s'. split; [exact E|]. split; [|split; [|exact Ho]].
      * rewrite Hc. cbn [RaycastGame.update_timers RaycastGame.shot_cooldown].
        destruct (0 <? RaycastGame.shot_cooldown s) eqn:Epos; lia.
      * rewrite Hi, Nat.iter_succ_r. reflexivity.
Qed.

(** C6, as stated, fails when the centre ray finds no wall within its 200
    steps: from the reachable state with the player at (1.5, 3.5), heading 0
    and no cooldown, the first fire request is honoured and resets the
    cooldown to 10, the second one is not honoured, and no impact was
    appended. *)
Lemma two_requests_without_effect :
  RaycastGame.reachable far_state ∧
  RaycastGame.shot_cooldown far_state = 0 ∧
  RaycastGame.bullet_impacts far_state = [] ∧
  ∃ s1 s2,
    RaycastGame.handle_input only_space far_state = Some s1 ∧
    RaycastGame.shot_cooldown s1 = 10 ∧
    RaycastGame.handle_input only_space s1 = Some s2 ∧
    RaycastGame.shot_cooldown s2 = 10 ∧
    RaycastGame.bullet_impacts s2 = [].
Proof.
  split; [exact far_state_reachable|]. split; [reflexivity|]. split; [reflexivity|].
  destruct fire_from_far_state as [E1 E2].
  exists (after_shot far_state false), (after_shot far_state false).
  split; [exact E1|]. split; [reflexivity|]. split; [exact E2|].
  split; reflexivity.
Qed.

(** C6, amended: a fire request is honoured only when [shot_cooldown] is 0.
    An honoured request sets [shot_cooldown] to 10 and [muzzle_flash_timer] to
    5, casts a ray along the heading and appends the impact
    [[GAME_WIDTH // 2, 10]] exactly when the distance is below 10, and nothing
    otherwise. Through any later calls of [handle_input] and fewer than 10
    calls of [update_timers] no further request is honoured: the cooldown only
    counts down from 10 and the impacts only age. So the requests of one window
    reset the cooldown once and append one impact when the ray hit, none when
    it did not. *)
Theorem one_shot_per_cooldown_window (self : RaycastGame.game)
    (first : RaycastGame.keys) (events : list RaycastGame.event) :
  RaycastGame.reachable self →
  RaycastGame.K_SPACE first = true →
  RaycastGame.shot_cooldown self = 0 →
  (timer_ticks events < 10)%nat →
  (∃ fired final d t,
     RaycastGame.handle_input first self = Some fired ∧
     RaycastGame.cast_ray fired (RaycastGame.player_angle fired) = Some (d, t) ∧
     RaycastGame.shot_cooldown fired = 10 ∧
     RaycastGame.muzzle_flash_timer fired = 5 ∧
     RaycastGame.bullet_impacts fired
     = RaycastGame.bullet_impacts self
       ++ (if bool_decide (d < 10)%R then [(GAME_WIDTH `div` 2, 10)] else []) ∧
     RaycastGame.run events fired = Some final ∧
     RaycastGame.shot_cooldown final = 10 - Z.of_nat (timer_ticks events) ∧
     RaycastGame.bullet_impacts final
     = Nat.iter (timer_ticks events) RaycastGame.age_impacts
                (RaycastGame.bullet_impacts fired)) ∧
  (∀ pressed s, RaycastGame.reachable s → RaycastGame.shot_cooldown s ≠ 0 →
     ∃ s', RaycastGame.handle_input pressed s = Some s' ∧ same_timers s s').
Proof.
  intros Hreach Hspace Hzero Hticks. split.
  - destruct (handle_input_open first self (reachable_open _ Hreach))
      as (s4 & fired & E & Hopen4 & (_ & _ & Tc & Ti) & Ef & Hopen).
    destruct (fire_block_spec first s4) as (fired' & Ef' & _ & _ & Hcase).
    rewrite Ef in Ef'. inversion Ef'; subst fired'.
    destruct Hcase as [(_ & _ & d & t & Ec & ->) | [Hno _]];
      [|destruct Hno; split; [exact Hspace | congruence]].
    destruct (run_in_window events (after_shot s4 (bool_decide (d < 10)%R)))
      as (final & Er & Hc & Hi & _); [exact Hopen | simpl; lia |].
    exists (after_shot s4 (bool_decide (d < 10)%R)), final, d, t.
    split; [exact E|]. split.
    { rewrite (cast_ray_position _ s4) by reflexivity. exact Ec. }
    split; [reflexivity|]. split; [reflexivity|]. split.
    { cbn [after_shot RaycastGame.bullet_impacts]. rewrite Ti. reflexivity. }
    split; [exact Er|]. split; [exact Hc | exact Hi].
  - intros pressed s Hs Hne.
    destruct (handle_input_open pressed s (reachable_open _ Hs))
      as (s4 & s' & E & _ & T & Ef & _).
    destruct (fire_block_spec pressed s4) as (s1 & Ef' & _ & _ & Hcase).
    rewrite Ef in Ef'. inversion Ef'; subst s1.
    destruct Hcase as [(_ & Hz & _) | [_ ->]].
    + destruct T as (_ & _ & Tc & _). congruence.
    + exists s4. split; [exact E | exact T].
Qed.

(** The amended C6 at the start: SPACE, one tick of the timers, then SPACE
    again. The first request appends the impact [(160, 10)]; after the
    sequence the cooldown is 9 and the list holds that one impact, aged
    once. *)
Lemma one_shot_from_start :
  ∃ fired final,
    RaycastGame.handle_input only_space RaycastGame.init = Some fired ∧
    RaycastGame.bullet_impacts fired = [(160, 10)] ∧
    RaycastGame.run [RaycastGame.Timers; RaycastGame.Input only_space] fired = Some final ∧
    RaycastGame.shot_cooldown final = 9 ∧
    RaycastGame.bullet_impacts final = [(160, 9)].
Proof.
  destruct (one_shot_per_cooldown_window RaycastGame.init only_space
              [RaycastGame.Timers; RaycastGame.Input only_space])
    as [(fired & final & d & t & E & _ & _ & _ & _ & Er & Hc & Hi) _].
  - apply RaycastGame.reach_init.
  - reflexivity.
  - reflexivity.
  - simpl. lia.
  - exists fired, final. split; [exact E|].
    rewrite (proj2 fire_from_start) in E. inversion E; subst fired.
    split; [reflexivity|]. split; [exact Er|]. split; [exact Hc|].
    rewrite Hi. reflexivity.
Defined.

(** ** The centre column of [render] *)

(** C8, as stated, fails on the numbers the code computes with: after one
    tick with the right arrow pressed the heading is the binary64 number
    nearest 0.05, and the ray angle of column 160 evaluates to a different
    binary64 number, two units in the last place below the heading. *)
Lemma centre_ray_angle_is_rounded :
  (Binary64.of_int 0 + Binary64.rot_speed)%float = Binary64.rot_speed ∧
  Binary64.ray_angle Binary64.rot_speed (GAME_WIDTH `div` 2)
  = 0x1.9999999999998p-5%float ∧
  PrimFloat.eqb (Binary64.ray_angle Binary64.rot_speed (GAME_WIDTH `div` 2))
                Binary64.rot_speed = false.
Proof. repeat split; vm_compute; reflexivity. Qed.

(** C8, amended: in exact real arithmetic the ray angle of the centre column
    [GAME_WIDTH // 2 = 160] is the heading itself, so the fisheye factor
    [cos (ray_angle - player_angle)] is 1 and the corrected distance is the
    distance [cast_ray] returns along the heading. *)
Theorem centre_ray_is_heading (self : RaycastGame.game) :
  GAME_WIDTH `div` 2 = 160 ∧
  RaycastGame.ray_angle self (GAME_WIDTH `div` 2) = RaycastGame.player_angle self ∧
  cos (RaycastGame.ray_angle self (GAME_WIDTH `div` 2) - RaycastGame.player_angle self) = 1%R ∧
  RaycastGame.corrected_distance self (GAME_WIDTH `div` 2)
  = fst <$> RaycastGame.cast_ray self (RaycastGame.player_angle self).
Proof.
  assert (Hangle : RaycastGame.ray_angle self (GAME_WIDTH `div` 2)
                   = RaycastGame.player_angle self).
  { unfold RaycastGame.ray_angle, RaycastGame.fov.
    change (GAME_WIDTH `div` 2) with 160. change GAME_WIDTH with 320. lra. }
  split; [reflexivity|]. split; [exact Hangle|].
  assert (Hcos : cos (RaycastGame.ray_angle self (GAME_WIDTH `div` 2)
                      - RaycastGame.player_angle self) = 1%R).
  { rewrite Hangle, Rminus_diag. apply cos_0. }
  split; [exact Hcos|].
  unfold RaycastGame.corrected_distance. rewrite Hcos, Hangle.
  destruct (RaycastGame.cast_ray self (RaycastGame.player_angle self)) as [[d t]|];
    [|reflexivity].
  cbn. f_equal. lra.
Qed.


(** * Further properties *)

(** ** calibrate_wled.py: the array of [show_xy_pattern] *)

Lemma serpentine_in_range x y :
  on_matrix x y → 0 ≤ Calibrate.rgb_to_wled_index x y < 128.
Proof. intros [Hx Hy]. apply serpentine_row_column; assumption. Qed.

Lemma serpentine_injective x y x' y' :
  on_matrix x y → on_matrix x' y' →
  Calibrate.rgb_to_wled_index x y = Calibrate.rgb_to_wled_index x' y' →
  x = x' ∧ y = y'.
Proof.
  intros [Hx Hy] [Hx' Hy'] E.
  pose proof (serpentine_row_column x y Hx Hy) as [_ E1].
  pose proof (serpentine_row_column x' y' Hx' Hy') as [_ E2].
  cbv zeta in E1, E2. rewrite E in E1. split; congruence.
Qed.

Lemma painted_ext f (C C' : Z → Z → Prop) leds :
  (∀ x y, C x y ↔ C' x y) → painted f C leds → painted f C' leds.
Proof.
  intros HC [Hlen H]. split; [exact Hlen|]. intros x y Hxy.
  destruct (H x y Hxy) as [E | [N E]]; [left; exact E | right].
  split; [rewrite <- HC; exact N | exact E].
Qed.

Lemma shown_truthy f x y c :
  f x y = Some c → CalibrateTool.truthy (Some c) = true → shown f x y = c.
Proof. intros E T. unfold shown. rewrite E. destruct c; [discriminate | reflexivity]. Qed.

Lemma shown_falsy f x y :
  CalibrateTool.truthy (f x y) = false → shown f x y = black.
Proof. intros T. unfold shown. destruct (f x y) as [[|]|]; try reflexivity. discriminate. Qed.

(** One execution of the loop body: it never raises on the matrix. *)
Lemma show_pixel_painted f C leds x y :
  on_matrix x y → painted f C leds →
  ∃ leds', CalibrateTool.show_pixel f y x leds = Some leds' ∧
           painted f (λ x' y', C x' y' ∨ (x' = x ∧ y' = y)) leds'.
Proof.
  intros Hxy [Hlen H]. unfold CalibrateTool.show_pixel.
  pose proof (serpentine_in_range x y Hxy) as Hr.
  assert (Hunwritten : CalibrateTool.truthy (f x y) = false →
            painted f (λ x' y', C x' y' ∨ (x' = x ∧ y' = y)) leds).
  { intros T. split; [exact Hlen|]. intros x' y' Hxy'.
    destruct (H x' y' Hxy') as [E | [N E]]; [left; exact E|].
    destruct (decide (x' = x ∧ y' = y)) as [[-> ->]|Hne].
    - left. rewrite E, shown_falsy by exact T. reflexivity.
    - right. split; [tauto | exact E]. }
  destruct (f x y) as [c|] eqn:Ef; [|exists leds; split; [reflexivity | apply Hunwritten; reflexivity]].
  destruct (CalibrateTool.truthy (Some c)) eqn:T;
    [|exists leds; split; [reflexivity | apply Hunwritten; reflexivity]].
  unfold Py.setitem. rewrite Hlen, index_nonneg by (change (Z.of_nat 128) with 128; lia).
  eexists. split; [reflexivity|]. split; [rewrite length_insert; exact Hlen|].
  intros x' y' Hxy'.
  destruct (decide (x' = x ∧ y' = y)) as [[-> ->]|Hne].
  - left. rewrite list_lookup_insert_eq by lia. rewrite (shown_truthy f x y c Ef T). reflexivity.
  - assert (Hidx : Z.to_nat (Calibrate.rgb_to_wled_index x y)
                   ≠ Z.to_nat (Calibrate.rgb_to_wled_index x' y')).
    { intros E. apply Hne. pose proof (serpentine_in_range x' y' Hxy').
      apply (serpentine_injective x' y' x y Hxy' Hxy). lia. }
    rewrite list_lookup_insert_ne by exact Hidx.
    destruct (H x' y' Hxy') as [E | [N E]]; [left; exact E | right].
    split; [tauto | exact E].
Qed.

Lemma show_xy_leds_painted f :
  ∃ leds, CalibrateTool.show_xy_leds f = Some leds ∧ painted f on_matrix leds.
Proof.
  unfold CalibrateTool.show_xy_leds.
  pose (Row := λ (ys : list Z) (l : list (list Z)),
          painted f (λ x y, y ∈ ys ∧ x ∈ Py.range MATRIX_WIDTH) l).
  destruct (for_each_total Row
    (λ y, Py.for_each (Py.range MATRIX_WIDTH) (λ x, CalibrateTool.show_pixel f y x))
    (Py.range MATRIX_HEIGHT)) with (done := @nil Z) (s := replicate 128 [0; 0; 0])
    as (leds & E & HR).
  - intros ys y s Hs Hy. apply elem_of_range in Hy.
    pose (Col := λ (xs : list Z) (l : list (list Z)),
            painted f (λ x' y', (y' ∈ ys ∧ x' ∈ Py.range MATRIX_WIDTH) ∨ (y' = y ∧ x' ∈ xs)) l).
    destruct (for_each_total Col (λ x, CalibrateTool.show_pixel f y x)
      (Py.range MATRIX_WIDTH)) with (done := @nil Z) (s := s) as (s' & E & HC).
    + intros xs x l Hl Hx. apply elem_of_range in Hx.
      destruct (show_pixel_painted f _ l x y (conj Hx Hy) Hl) as (l' & El & Hl').
      exists l'. split; [exact El|]. unfold Col. eapply painted_ext; [|exact Hl'].
      intros x' y'. simpl. rewrite elem_of_app, list_elem_of_singleton. tauto.
    + unfold Col. eapply painted_ext; [|exact Hs].
      intros x' y'. simpl. rewrite elem_of_nil. tauto.
    + exists s'. split; [exact E|]. unfold Col in HC. unfold Row.
      eapply painted_ext; [|exact HC].
      intros x' y'. simpl. rewrite elem_of_app, list_elem_of_singleton.
      split; [intros [?|[-> ?]]; tauto | intros [[?| ->] ?]; tauto].
  - unfold Row. split; [reflexivity|]. intros x y Hxy. right. split.
    + rewrite elem_of_nil. tauto.
    + apply lookup_replicate_2. pose proof (serpentine_in_range x y Hxy). lia.
  - exists leds. split; [exact E|]. unfold Row in HR. eapply painted_ext; [|exact HR].
    intros x y. simpl. rewrite !elem_of_range. unfold on_matrix. tauto.
Qed.

(** X1: for every pattern function, [show_xy_pattern] raises nothing: it
    builds an array of 128 colours in which the LED of each pixel [(x, y)]
    (its serpentine index) holds the colour the pattern function returned
    when that is truthy and [[0, 0, 0]] when it returned [None] or an empty
    list, hands that array to [send_pattern], and [send_pattern] answers
    [True] exactly when the POST of that array returned status 200. *)
Theorem show_xy_pattern_displays (post : payload → outcome response)
    (pattern_func : Z → Z → CalibrateTool.color) :
  ∃ leds printed ok,
    CalibrateTool.show_xy_leds pattern_func = Some leds ∧
    length leds = 128%nat ∧
    (∀ x y, 0 ≤ x < 16 → 0 ≤ y < 8 →
       leds !! Z.to_nat (Calibrate.rgb_to_wled_index x y)
       = Some (shown pattern_func x y)) ∧
    CalibrateTool.show_xy_pattern post pattern_func = Return (printed, Return ok) ∧
    (ok = true ↔ ∃ resp, post (pattern_request leds) = Return resp ∧
                         status_code resp = 200) ∧
    (printed = None ↔ ∃ resp, post (pattern_request leds) = Return resp).
Proof.
  destruct (show_xy_leds_painted pattern_func) as (leds & E & Hlen & H).
  unfold CalibrateTool.show_xy_pattern, CalibrateTool.send_pattern. rewrite E.
  change ({| on := true; bri := 255;
             seg := [ {| seg_id := 0; seg_i := Some <$> leds |} ] |})
    with (pattern_request leds).
  destruct (post (pattern_request leds)) as [resp|e] eqn:Ep.
  - exists leds, None, (status_code resp =? 200).
    split; [reflexivity|]. split; [exact Hlen|]. split.
    { intros x y Hx Hy. destruct (H x y (conj Hx Hy)) as [Hs | [N _]]; [exact Hs|].
      destruct N. split; assumption. }
    split; [reflexivity|]. split.
    + split; [intros Hb; exists resp; apply Z.eqb_eq in Hb; split; [exact Ep | exact Hb]|].
      intros (r0 & Er & Hs). rewrite Ep in Er. inversion Er; subst. apply Z.eqb_eq, Hs.
    + split; [intros _; exists resp; exact Ep | reflexivity].
  - exists leds, (Some e), false.
    split; [reflexivity|]. split; [exact Hlen|]. split.
    { intros x y Hx Hy. destruct (H x y (conj Hx Hy)) as [Hs | [N _]]; [exact Hs|].
      destruct N. split; assumption. }
    split; [reflexivity|]. split.
    + split; [discriminate | intros (r0 & Er & _); rewrite Ep in Er; discriminate].
    + split; [discriminate | intros (r0 & Er); rewrite Ep in Er; discriminate].
Qed.

(** ** calibrate_wled.py: the wiring the serpentine mapper describes *)

Lemma serpentine_step (i : Z) :
  0 ≤ i < 127 → i ≠ 63 →
  Z.abs ((serpentine_inverse (i + 1)).1 - (serpentine_inverse i).1) +
  Z.abs ((serpentine_inverse (i + 1)).2 - (serpentine_inverse i).2) = 1.
Proof.
  intros Hi Hne.
  pose (P := λ i : Z,
    (i =? 63) ||
    (Z.abs ((serpentine_inverse (i + 1)).1 - (serpentine_inverse i).1) +
     Z.abs ((serpentine_inverse (i + 1)).2 - (serpentine_inverse i).2) =? 1)).
  assert (HP : P i = true).
  { clear Hne. revert i Hi. apply (range_forallb 127 P). vm_compute. reflexivity. }
  unfold P in HP. apply orb_prop in HP as [HP|HP]; lia.
Qed.

Lemma serpentine_panel (x y : Z) :
  0 ≤ x < 16 → 0 ≤ y < 8 → (x < 8 ↔ Calibrate.rgb_to_wled_index x y < 64).
Proof.
  intros Hx Hy.
  pose (P := λ x y : Z, Bool.eqb (x <? 8) (Calibrate.rgb_to_wled_index x y <? 64)).
  assert (HP : P x y = true).
  { revert y Hy. apply (range_forallb 8 (P x)).
    revert x Hx. apply (range_forallb 16 (λ x, forallb (P x) (Py.range 8))).
    vm_compute. reflexivity. }
  unfold P in HP. apply Bool.eqb_prop in HP.
  destruct (x <? 8) eqn:E1; symmetry in HP; lia.
Qed.

(** X2: the serpentine mapper follows the wiring its docstring describes. The
    left panel owns the indices below 64 and the right panel the rest, and two
    pixels with consecutive indices are neighbours on the matrix (one step
    apart in a row or a column), except across the seam between the panels,
    from index 63 to index 64. *)
Theorem serpentine_follows_the_strip (x y x' y' : Z) :
  0 ≤ x < 16 → 0 ≤ y < 8 → 0 ≤ x' < 16 → 0 ≤ y' < 8 →
  Calibrate.rgb_to_wled_index x' y' = Calibrate.rgb_to_wled_index x y + 1 →
  (x < 8 ↔ Calibrate.rgb_to_wled_index x y < 64) ∧
  (Calibrate.rgb_to_wled_index x y ≠ 63 → Z.abs (x' - x) + Z.abs (y' - y) = 1) ∧
  (Calibrate.rgb_to_wled_index x y = 63 → (x, y) = (0, 7) ∧ (x', y') = (15, 7)).
Proof.
  intros Hx Hy Hx' Hy' E.
  pose proof (serpentine_row_column x y Hx Hy) as [Hr E1].
  pose proof (serpentine_row_column x' y' Hx' Hy') as [Hr' E2].
  cbv zeta in *. rewrite E in E2, Hr'.
  split; [apply serpentine_panel; assumption|]. split.
  - intros Hne.
    pose proof (serpentine_step (Calibrate.rgb_to_wled_index x y) ltac:(lia) Hne) as Hs.
    rewrite E1, E2 in Hs. exact Hs.
  - intros E63. rewrite E63 in E1, E2. vm_compute in E1, E2. split; congruence.
Qed.

(** X2 at the end of the first row of the left panel: index 7 is the pixel
    (7, 0) and index 8 the pixel (7, 1) below it. *)
Lemma serpentine_turns_at_row_end :
  Calibrate.rgb_to_wled_index 7 0 = 7 ∧ Calibrate.rgb_to_wled_index 7 1 = 8 ∧
  Z.abs (7 - 7) + Z.abs (1 - 0) = 1.
Proof.
  split; [reflexivity|]. split; [reflexivity|].
  apply (serpentine_follows_the_strip 7 0 7 1); [lia | lia | lia | lia | reflexivity |].
  discriminate.
Defined.

(** ** test_wled_mapping.py: lighting a range of indices *)

Lemma range_from_cons (a b : Z) :
  a < b → Py.range_from a b = a :: Py.range_from (a + 1) b.
Proof.
  intros H. unfold Py.range_from.
  replace (Z.to_nat (b - a)) with (S (Z.to_nat (b - (a + 1)))) by lia.
  cbn [seq fmap list_fmap]. f_equal; [lia|].
  rewrite <- fmap_S_seq, <- list_fmap_compose. apply list_fmap_ext.
  intros _ k _. simpl. lia.
Qed.

Lemma range_from_nil (a b : Z) : b ≤ a → Py.range_from a b = [].
Proof. intros H. unfold Py.range_from. replace (Z.to_nat (b - a)) with 0%nat by lia. reflexivity. Qed.

Lemma setitem_nonneg {A} (l : list A) (i : Z) (v : A) :
  0 ≤ i < Z.of_nat (length l) → Py.setitem l i v = Some (<[Z.to_nat i:=v]> l).
Proof. intros H. unfold Py.setitem. rewrite index_nonneg by exact H. reflexivity. Qed.

(** The loop writes the colour at the positions [a .. b - 1] and nowhere
    else. *)
Lemma light_range_spec (c : list Z) (n : nat) : ∀ (a b : Z) (leds : list (list Z)),
  Z.to_nat (b - a) = n → 0 ≤ a → b ≤ Z.of_nat (length leds) →
  ∃ leds', MappingTest.light_range a b c leds = Some leds' ∧
           length leds' = length leds ∧
           ∀ i : nat, leds' !! i
                      = if decide (a ≤ Z.of_nat i < b) then Some c else leds !! i.
Proof.
  unfold MappingTest.light_range.
  induction n as [|n IH]; intros a b leds Hn Ha Hb.
  - rewrite range_from_nil by lia. exists leds. split; [reflexivity|]. split; [reflexivity|].
    intros i. destruct (decide (a ≤ Z.of_nat i < b)); [lia | reflexivity].
  - rewrite range_from_cons by lia. cbn [Py.for_each].
    rewrite setitem_nonneg by lia.
    cbv beta iota delta [mbind option_bind].
    destruct (IH (a + 1) b (<[Z.to_nat a:=c]> leds)) as (leds' & E & Hlen & H);
      [lia | lia | rewrite length_insert; lia |].
    exists leds'. split; [exact E|]. split; [rewrite Hlen, length_insert; reflexivity|].
    intros i. rewrite H.
    destruct (decide (a + 1 ≤ Z.of_nat i < b)), (decide (a ≤ Z.of_nat i < b));
      try reflexivity; try lia.
    + replace i with (Z.to_nat a) by lia. apply list_lookup_insert_eq. lia.
    + apply list_lookup_insert_ne. lia.
Qed.

(** X3: on an array of 128 colours, lighting the indices [16 * r] to
    [16 * r + 15] never raises and colours exactly row [r] of the matrix as the
    game's row-major mapper addresses it: a pixel of row [r] gets the colour,
    every other pixel keeps the one it had (tests 1 to 3 of the script, rows 0,
    1 and 7). *)
Theorem light_range_lights_a_row (r : Z) (c : list Z) (leds : list (list Z)) :
  0 ≤ r < 8 → length leds = 128%nat →
  ∃ leds',
    MappingTest.light_range (16 * r) (16 * r + 16) c leds = Some leds' ∧
    length leds' = 128%nat ∧
    ∀ x y, 0 ≤ x < 16 → 0 ≤ y < 8 →
      leds' !! Z.to_nat (WLEDStreamer.rgb_to_wled_index x y)
      = if decide (y = r) then Some c
        else leds !! Z.to_nat (WLEDStreamer.rgb_to_wled_index x y).
Proof.
  intros Hr Hlen.
  destruct (light_range_spec c 16 (16 * r) (16 * r + 16) leds) as (leds' & E & Hl & H);
    [lia | lia | lia |].
  exists leds'. split; [exact E|]. split; [congruence|].
  intros x y Hx Hy. rewrite H. unfold WLEDStreamer.rgb_to_wled_index, MATRIX_WIDTH.
  destruct (decide (16 * r ≤ Z.of_nat (Z.to_nat (y * 16 + x)) < 16 * r + 16)),
           (decide (y = r)); try reflexivity; lia.
Qed.

(** X3 on the first test of the script: red on the indices 0 to 15 of a dark
    array lights the pixel (5, 0) and leaves the pixel (5, 1) dark. *)
Lemma first_row_is_lit :
  ∃ leds',
    MappingTest.light_range 0 16 [255; 0; 0] (replicate 128 black) = Some leds' ∧
    leds' !! Z.to_nat (WLEDStreamer.rgb_to_wled_index 5 0) = Some [255; 0; 0] ∧
    leds' !! Z.to_nat (WLEDStreamer.rgb_to_wled_index 5 1) = Some black.
Proof.
  destruct (light_range_lights_a_row 0 [255; 0; 0] (replicate 128 black))
    as (leds' & E & _ & H); [lia | reflexivity |].
  exists leds'. split; [exact E|]. split.
  - rewrite (H 5 0) by lia. reflexivity.
  - rewrite (H 5 1) by lia. reflexivity.
Defined.

(** ** wled_game.py: the timers, the impact list and the [shooting] flag *)

(** A property of the timers and impacts holds in every reachable state when
    it holds at the start and survives a shot fired at cooldown 0 and a call
    of [update_timers]. *)
Lemma reachable_timers_inv (P : RaycastGame.game → Prop) :
  P RaycastGame.init →
  (∀ s s', same_timers s s' → P s → P s') →
  (∀ s hit, P s → RaycastGame.shot_cooldown s = 0 → P (after_shot s hit)) →
  (∀ s, P s → P (RaycastGame.update_timers s)) →
  ∀ s, RaycastGame.reachable s → P s.
Proof.
  intros Hinit Hsame Hshot Htick s Hs.
  induction Hs as [|pressed s s' Hs IH E|s _ IH].
  - exact Hinit.
  - destruct (handle_input_open pressed s (reachable_open s Hs))
      as (s4 & s'' & E' & _ & T & Ef & _).
    rewrite E in E'. inversion E'; subst s''.
    destruct (fire_block_spec pressed s4) as (s5 & Ef' & _ & _ & Hcase).
    rewrite Ef in Ef'. inversion Ef'; subst s5.
    pose proof (Hsame s s4 T IH) as H4.
    destruct Hcase as [(_ & Hz & d & t & _ & ->) | [_ ->]];
      [apply Hshot; assumption | exact H4].
  - apply Htick, IH.
Qed.

(** X4: in every reachable state the muzzle flash timer is between 0 and 5
    and the cooldown between 0 and 10, and while the flash timer is running
    the cooldown is exactly 5 ahead of it: the flash ends 5 ticks before the
    weapon can fire again. *)
Theorem flash_ends_before_cooldown (s : RaycastGame.game) :
  RaycastGame.reachable s →
  0 ≤ RaycastGame.muzzle_flash_timer s ≤ 5 ∧
  0 ≤ RaycastGame.shot_cooldown s ≤ 10 ∧
  (0 < RaycastGame.muzzle_flash_timer s →
   RaycastGame.shot_cooldown s = RaycastGame.muzzle_flash_timer s + 5) ∧
  (RaycastGame.muzzle_flash_timer s = 0 → RaycastGame.shot_cooldown s ≤ 5).
Proof.
  intros Hs.
  assert (H : timers_in_step s).
  { revert s Hs. apply reachable_timers_inv.
    - left. simpl. lia.
    - intros s s' (_ & Tf & Tc & _) H. unfold timers_in_step in *. rewrite Tf, Tc. exact H.
    - intros s hit _ _. right. simpl. lia.
    - intros s H. unfold timers_in_step in *.
      cbn [RaycastGame.update_timers RaycastGame.muzzle_flash_timer RaycastGame.shot_cooldown].
      destruct (0 <? RaycastGame.muzzle_flash_timer s) eqn:Ef,
               (0 <? RaycastGame.shot_cooldown s) eqn:Ec; lia. }
  unfold timers_in_step in H. lia.
Qed.

(** X4 after the first shot: flash 5, cooldown 10. *)
Lemma flash_and_cooldown_after_first_shot :
  RaycastGame.muzzle_flash_timer (after_shot RaycastGame.init true) = 5 ∧
  RaycastGame.shot_cooldown (after_shot RaycastGame.init true)
  = RaycastGame.muzzle_flash_timer (after_shot RaycastGame.init true) + 5.
Proof.
  assert (Hr : RaycastGame.reachable (after_shot RaycastGame.init true)).
  { eapply RaycastGame.reach_input; [apply RaycastGame.reach_init | apply fire_from_start]. }
  split; [reflexivity|].
  apply (flash_ends_before_cooldown _ Hr). reflexivity.
Defined.

Lemma reachable_single_impact (s : RaycastGame.game) :
  RaycastGame.reachable s → single_impact s.
Proof.
  revert s. apply reachable_timers_inv.
  - left. reflexivity.
  - intros s s' (_ & _ & Tc & Ti) H. unfold single_impact in *. rewrite Tc, Ti. exact H.
  - intros s hit [E | [_ Hc]] Hz; [|lia].
    unfold single_impact. cbn [after_shot RaycastGame.bullet_impacts RaycastGame.shot_cooldown].
    rewrite E. destruct hit; [right | left; reflexivity].
    split; [reflexivity | lia].
  - intros s [E | [E Hc]]; unfold single_impact;
      cbn [RaycastGame.update_timers RaycastGame.bullet_impacts RaycastGame.shot_cooldown];
      rewrite E; [left; reflexivity|].
    destruct (0 <? RaycastGame.shot_cooldown s) eqn:Ec; [|lia].
    unfold RaycastGame.age_impacts. cbn [fmap list_fmap].
    assert (Ea : RaycastGame.age_impact (160, RaycastGame.shot_cooldown s)
                 = (160, RaycastGame.shot_cooldown s - 1)).
    { unfold RaycastGame.age_impact. cbn [fst snd]. rewrite Ec. reflexivity. }
    rewrite Ea.
    destruct (decide (1 < RaycastGame.shot_cooldown s)) as [Hgt|Hle].
    + right. rewrite filter_cons_True by (simpl; lia). split; [reflexivity | lia].
    + left. rewrite filter_cons_False by (simpl; lia). reflexivity.
Qed.

(** X5: the impact list of a reachable state never holds more than one
    impact: it is empty, or it is the impact of the last shot, at column 160,
    and its remaining lifetime is the remaining cooldown; when the weapon is
    ready to fire the list is empty. *)
Theorem at_most_one_impact (s : RaycastGame.game) :
  RaycastGame.reachable s →
  (RaycastGame.bullet_impacts s = [] ∨
   RaycastGame.bullet_impacts s = [(GAME_WIDTH `div` 2, RaycastGame.shot_cooldown s)]) ∧
  (length (RaycastGame.bullet_impacts s) ≤ 1)%nat ∧
  (RaycastGame.shot_cooldown s = 0 → RaycastGame.bullet_impacts s = []).
Proof.
  intros Hs. destruct (reachable_single_impact s Hs) as [E | [E Hc]]; rewrite E.
  - split; [left; reflexivity|]. split; [simpl; lia | reflexivity].
  - split; [right; reflexivity|]. split; [simpl; lia | lia].
Qed.

(** X5 after the first shot and one tick of the timers: one impact, with the
    lifetime 9 of the cooldown. *)
Lemma one_impact_after_first_shot :
  RaycastGame.bullet_impacts (RaycastGame.update_timers (after_shot RaycastGame.init true))
  = [(160, 9)] ∧
  (length (RaycastGame.bullet_impacts
             (RaycastGame.update_timers (after_shot RaycastGame.init true))) ≤ 1)%nat.
Proof.
  assert (Hr : RaycastGame.reachable
                 (RaycastGame.update_timers (after_shot RaycastGame.init true))).
  { apply RaycastGame.reach_timers.
    eapply RaycastGame.reach_input; [apply RaycastGame.reach_init | apply fire_from_start]. }
  split; [reflexivity|]. apply (at_most_one_impact _ Hr).
Defined.

Lemma move_block_same pressed m s s' :
  move_block pressed m s = Some s' → same_timers s s'.
Proof.
  unfold move_block, RaycastGame.move_to. destruct pressed.
  - destruct (RaycastGame.map_cell _ _) as [c|]; [|discriminate].
    cbv beta iota delta [mbind option_bind]. destruct (c =? 0); intros E; inversion E.
    + apply set_position_timers.
    + apply same_timers_refl.
  - intros E. inversion E. apply same_timers_refl.
Qed.

(** [handle_input], wherever the player stands: before the shooting block only
    the position and heading changed. *)
Lemma handle_input_before_fire pressed s s' :
  RaycastGame.handle_input pressed s = Some s' →
  ∃ s4, same_timers s s4 ∧ fire_block pressed s4 = Some s'.
Proof.
  rewrite handle_input_stages.
  destruct (after_rotation_position pressed s) as (_ & _ & T0).
  destruct (move_block _ Forward _) as [s1|] eqn:E1; [|discriminate].
  cbv beta iota delta [mbind option_bind].
  destruct (move_block _ Backward _) as [s2|] eqn:E2; [|discriminate].
  cbv beta iota delta [mbind option_bind].
  destruct (move_block _ StrafeLeft _) as [s3|] eqn:E3; [|discriminate].
  cbv beta iota delta [mbind option_bind].
  destruct (move_block _ StrafeRight _) as [s4|] eqn:E4; [|discriminate].
  cbv beta iota delta [mbind option_bind].
  intros Ef. exists s4. split; [|exact Ef].
  apply move_block_same in E1, E2, E3, E4.
  eauto using same_timers_trans.
Qed.

Lemma handle_input_shooting pressed s s' :
  RaycastGame.handle_input pressed s = Some s' →
  RaycastGame.shooting s = true → RaycastGame.shooting s' = true.
Proof.
  intros E Hs. destruct (handle_input_before_fire _ _ _ E) as (s4 & (Tsh & _) & Ef).
  destruct (fire_block_spec pressed s4) as (s5 & Ef' & _ & _ & Hcase).
  rewrite Ef in Ef'. inversion Ef'; subst s5.
  destruct Hcase as [(_ & _ & d & t & _ & ->) | [_ ->]]; [reflexivity | congruence].
Qed.

(** X6: the [shooting] flag is set by the first shot and never cleared: once
    it is [True] it stays [True] through every later call of [handle_input]
    and [update_timers]; and while it is still [False] in a reachable state no
    shot was fired, so both timers are 0 and there is no impact. *)
Theorem shooting_flag_is_never_cleared (events : list RaycastGame.event)
    (s s' : RaycastGame.game) :
  RaycastGame.run events s = Some s' →
  (RaycastGame.shooting s = true → RaycastGame.shooting s' = true) ∧
  (RaycastGame.reachable s → RaycastGame.shooting s = false →
   RaycastGame.shot_cooldown s = 0 ∧ RaycastGame.muzzle_flash_timer s = 0 ∧
   RaycastGame.bullet_impacts s = []).
Proof.
  intros Hrun. split.
  - revert s Hrun. induction events as [|[pressed|] rest IH]; intros s Hrun Hs.
    + inversion Hrun; subst. exact Hs.
    + cbn [RaycastGame.run] in Hrun.
      destruct (RaycastGame.handle_input pressed s) as [s1|] eqn:E; [|discriminate].
      apply (IH s1 Hrun). exact (handle_input_shooting _ _ _ E Hs).
    + cbn [RaycastGame.run] in Hrun. apply (IH _ Hrun). exact Hs.
  - clear Hrun. revert s. apply (reachable_timers_inv
      (λ s, RaycastGame.shooting s = false →
            RaycastGame.shot_cooldown s = 0 ∧ RaycastGame.muzzle_flash_timer s = 0 ∧
            RaycastGame.bullet_impacts s = [])).
    + intros _. repeat split.
    + intros s0 s1 (Tsh & Tf & Tc & Ti) H Hf. rewrite Tf, Tc, Ti. apply H. congruence.
    + intros s0 hit _ _ Hf. discriminate.
    + intros s0 H Hf. destruct (H Hf) as (Ec & Ef & Ei).
      cbn [RaycastGame.update_timers RaycastGame.muzzle_flash_timer
           RaycastGame.shot_cooldown RaycastGame.bullet_impacts].
      rewrite Ec, Ef, Ei. repeat split.
Qed.

(** X6 from the first shot on: the flag is [True] after the shot and still
    [True] after a tick of the timers and another key press. *)
Lemma shooting_stays_set_after_first_shot :
  RaycastGame.shooting (after_shot RaycastGame.init true) = true ∧
  ∃ s', RaycastGame.run [RaycastGame.Timers; RaycastGame.Input only_space]
          (after_shot RaycastGame.init true) = Some s' ∧
        RaycastGame.shooting s' = true.
Proof.
  split; [reflexivity|].
  destruct (RaycastGame.run [RaycastGame.Timers; RaycastGame.Input only_space]
              (after_shot RaycastGame.init true)) as [s'|] eqn:E;
    [|discriminate E].
  exists s'. split; [reflexivity|].
  apply (shooting_flag_is_never_cleared _ _ _ E). reflexivity.
Defined.

Lemma iter_update_timers (n : nat) (s : RaycastGame.game) :
  0 ≤ RaycastGame.shot_cooldown s → 0 ≤ RaycastGame.muzzle_flash_timer s →
  RaycastGame.shot_cooldown (Nat.iter n RaycastGame.update_timers s)
  = Z.max 0 (RaycastGame.shot_cooldown s - Z.of_nat n) ∧
  RaycastGame.muzzle_flash_timer (Nat.iter n RaycastGame.update_timers s)
  = Z.max 0 (RaycastGame.muzzle_flash_timer s - Z.of_nat n).
Proof.
  intros Hc Hf. induction n as [|n [IHc IHf]].
  - simpl. lia.
  - rewrite Nat.iter_succ.
    cbn [RaycastGame.update_timers RaycastGame.shot_cooldown RaycastGame.muzzle_flash_timer].
    rewrite IHc, IHf.
    destruct (0 <? Z.max 0 (RaycastGame.shot_cooldown s - Z.of_nat n)) eqn:E1,
             (0 <? Z.max 0 (RaycastGame.muzzle_flash_timer s - Z.of_nat n)) eqn:E2; lia.
Qed.

Lemma iter_update_timers_reachable (n : nat) (s : RaycastGame.game) :
  RaycastGame.reachable s → RaycastGame.reachable (Nat.iter n RaycastGame.update_timers s).
Proof.
  intros Hs. induction n as [|n IH]; [exact Hs|].
  rewrite Nat.iter_succ. apply RaycastGame.reach_timers, IH.
Qed.

(** X7: ten calls of [update_timers] after any reachable state the weapon is
    idle again: cooldown and muzzle flash are 0, the impact list is empty, and
    a press of SPACE is honoured, setting the cooldown back to 10. *)
Theorem weapon_ready_after_ten_ticks (s : RaycastGame.game) (pressed : RaycastGame.keys) :
  RaycastGame.reachable s → RaycastGame.K_SPACE pressed = true →
  let idle := Nat.iter 10 RaycastGame.update_timers s in
  RaycastGame.shot_cooldown idle = 0 ∧
  RaycastGame.muzzle_flash_timer idle = 0 ∧
  RaycastGame.bullet_impacts idle = [] ∧
  ∃ fired, RaycastGame.handle_input pressed idle = Some fired ∧
           RaycastGame.shot_cooldown fired = 10 ∧
           RaycastGame.muzzle_flash_timer fired = 5.
Proof.
  intros Hs Hspace idle.
  pose proof (flash_ends_before_cooldown s Hs) as (Hf & Hc & _).
  destruct (iter_update_timers 10 s) as [Ec Ef]; [lia | lia |].
  fold idle in Ec, Ef.
  assert (Hidle : RaycastGame.reachable idle) by (apply iter_update_timers_reachable, Hs).
  assert (Ec0 : RaycastGame.shot_cooldown idle = 0) by lia.
  split; [exact Ec0|]. split; [lia|].
  split; [apply (at_most_one_impact idle Hidle), Ec0|].
  destruct (handle_input_open pressed idle (reachable_open _ Hidle))
    as (s4 & fired & E & _ & (_ & _ & Tc & _) & Efire & _).
  destruct (fire_block_spec pressed s4) as (s5 & Efire' & _ & _ & Hcase).
  rewrite Efire in Efire'. inversion Efire'; subst s5.
  exists fired. split; [exact E|].
  destruct Hcase as [(_ & _ & d & t & _ & ->) | [Hno _]]; [split; reflexivity|].
  destruct Hno. split; [exact Hspace | congruence].
Qed.

(** X7 after the first shot. *)
Lemma weapon_ready_ten_ticks_after_first_shot :
  RaycastGame.shot_cooldown
    (Nat.iter 10 RaycastGame.update_timers (after_shot RaycastGame.init true)) = 0 ∧
  RaycastGame.bullet_impacts
    (Nat.iter 10 RaycastGame.update_timers (after_shot RaycastGame.init true)) = [] ∧
  ∃ fired, RaycastGame.handle_input only_space
             (Nat.iter 10 RaycastGame.update_timers (after_shot RaycastGame.init true))
           = Some fired ∧ RaycastGame.shot_cooldown fired = 10.
Proof.
  assert (Hr : RaycastGame.reachable (after_shot RaycastGame.init true)).
  { eapply RaycastGame.reach_input; [apply RaycastGame.reach_init | apply fire_from_start]. }
  destruct (weapon_ready_after_ten_ticks _ only_space Hr eq_refl)
    as (Hc & _ & Hi & fired & E & Hf & _).
  split; [exact Hc|]. split; [exact Hi|]. exists fired. split; [exact E | exact Hf].
Defined.

(** ** wled_game.py: the impacts and the weapon in [render] *)

(** [int(5 * timer / 10)] is half the timer, rounded down. *)
Lemma impact_size_half (timer : Z) :
  0 ≤ timer → RaycastGame.impact_size timer = Z.max 2 (timer `div` 2).
Proof.
  intros Ht. unfold RaycastGame.impact_size. f_equal.
  pose proof (Z.div_mod timer 2 ltac:(lia)) as Hdm.
  pose proof (Z.mod_pos_bound timer 2 ltac:(lia)) as Hr.
  assert (Hq : 0 ≤ timer `div` 2) by (apply Z.div_pos; lia).
  apply int_eq; [exact Hq|].
  assert (E : IZR timer = (2 * IZR (timer `div` 2) + IZR (timer `mod` 2))%R).
  { rewrite Hdm at 1. rewrite plus_IZR, mult_IZR. reflexivity. }
  assert (Hr0 : (0 <= IZR (timer `mod` 2) <= 1)%R)
    by (split; [apply (IZR_le 0) | apply (IZR_le _ 1)]; lia).
  rewrite mult_IZR, E. lra.
Qed.

(** The wall centre of [render] is the middle of the screen whatever the
    height of the strip. *)
Lemma wall_center_is_mid_screen (wall_height : Z) :
  99 ≤ (GAME_HEIGHT - wall_height) `div` 2 + wall_height `div` 2 ≤ 100.
Proof.
  unfold GAME_HEIGHT.
  pose proof (Z.div_mod (200 - wall_height) 2 ltac:(lia)).
  pose proof (Z.mod_pos_bound (200 - wall_height) 2 ltac:(lia)).
  pose proof (Z.div_mod wall_height 2 ltac:(lia)).
  pose proof (Z.mod_pos_bound wall_height 2 ltac:(lia)).
  lia.
Qed.

(** X8: in every reachable state the impact loop of [render] raises nothing,
    and a circle it draws is centred in column 160 on row 99 or 100, the
    middle of the screen, with a radius of half the remaining lifetime but at
    least 2, so between 2 and 5. *)
Theorem impacts_are_drawn_mid_screen (s : RaycastGame.game) :
  RaycastGame.reachable s →
  Forall (λ impact,
            ∃ drawn, RaycastGame.render_impact s impact = Some drawn ∧
              ∀ cx cy radius, drawn = Some (cx, cy, radius) →
                cx = 160 ∧ 99 ≤ cy ≤ 100 ∧
                radius = Z.max 2 (impact.2 `div` 2) ∧ 2 ≤ radius ≤ 5)
         (RaycastGame.bullet_impacts s).
Proof.
  intros Hs. pose proof (reachable_impacts s Hs) as Hlife.
  destruct (reachable_single_impact s Hs) as [E | [E Hc]]; rewrite E in *; [constructor|].
  constructor; [|constructor].
  apply Forall_inv in Hlife. cbn [snd fst] in Hlife |- *.
  unfold RaycastGame.render_impact. cbn [fst snd].
  destruct (0 <? RaycastGame.shot_cooldown s) eqn:Epos; [|lia].
  destruct (cast_ray_total s
    (RaycastGame.player_angle s - RaycastGame.fov / 2
     + IZR 160 / IZR GAME_WIDTH * RaycastGame.fov)) as (d & t & Ecast).
  rewrite Ecast. cbv beta iota delta [mbind option_bind]. cbn [fst].
  destruct (Rlt_dec 0.1 _) as [Hfar|Hnear].
  - eexists. split; [reflexivity|]. intros cx cy radius Hd. inversion Hd; subst.
    split; [reflexivity|]. split; [apply wall_center_is_mid_screen|].
    rewrite impact_size_half by lia. split; [reflexivity|].
    assert (RaycastGame.shot_cooldown s `div` 2 ≤ 5)
      by (apply Z.div_le_upper_bound; lia).
    lia.
  - eexists. split; [reflexivity|]. intros cx cy radius Hd. discriminate.
Qed.

(** X8 after the first shot: the impact of lifetime 10 is drawn with radius
    5 in column 160. *)
Lemma first_impact_is_drawn_mid_screen :
  ∃ drawn, RaycastGame.render_impact (after_shot RaycastGame.init true) (160, 10)
           = Some drawn ∧
    ∀ cx cy radius, drawn = Some (cx, cy, radius) →
      cx = 160 ∧ 99 ≤ cy ≤ 100 ∧ radius = 5 ∧ 2 ≤ radius ≤ 5.
Proof.
  assert (Hr : RaycastGame.reachable (after_shot RaycastGame.init true)).
  { eapply RaycastGame.reach_input; [apply RaycastGame.reach_init | apply fire_from_start]. }
  pose proof (impacts_are_drawn_mid_screen _ Hr) as H.
  apply Forall_inv in H. exact H.
Defined.

(** X9: the large recoil (8 pixels) and the large muzzle flash (radius 50) of
    [draw_weapon] appear only in the frame rendered right after the shot,
    when [update_timers] has taken the flash timer from 5 to 4; one call of
    [update_timers] later the recoil is 3 or 0 and the flash small or gone. *)
Theorem large_flash_lasts_one_frame (s : RaycastGame.game) :
  RaycastGame.reachable s →
  (RaycastGame.recoil (RaycastGame.update_timers s) = 8 ↔
   RaycastGame.shot_cooldown s = 10) ∧
  (RaycastGame.flash_size (RaycastGame.update_timers s) = Some 50 ↔
   RaycastGame.shot_cooldown s = 10) ∧
  RaycastGame.recoil (RaycastGame.update_timers (RaycastGame.update_timers s)) ≤ 3 ∧
  RaycastGame.flash_size (RaycastGame.update_timers (RaycastGame.update_timers s))
  ≠ Some 50.
Proof.
  intros Hs. pose proof (flash_ends_before_cooldown s Hs) as (Hf & Hc & Hstep & Hzero).
  unfold RaycastGame.recoil, RaycastGame.flash_size.
  cbn [RaycastGame.update_timers RaycastGame.muzzle_flash_timer].
  assert (Hcases : RaycastGame.muzzle_flash_timer s = 0 ∨
                   RaycastGame.muzzle_flash_timer s = 1 ∨
                   RaycastGame.muzzle_flash_timer s = 2 ∨
                   RaycastGame.muzzle_flash_timer s = 3 ∨
                   RaycastGame.muzzle_flash_timer s = 4 ∨
                   RaycastGame.muzzle_flash_timer s = 5) by lia.
  destruct Hcases as [E|[E|[E|[E|[E|E]]]]]; rewrite E in *; simpl;
    repeat split;
    try (intros H; first [lia | discriminate | reflexivity | (exfalso; lia)]);
    lia.
Qed.

(** X9 for the first shot: the frame after it shows the recoil of 8. *)
Lemma large_recoil_after_first_shot :
  RaycastGame.recoil (RaycastGame.update_timers (after_shot RaycastGame.init true)) = 8 ∧
  RaycastGame.recoil
    (RaycastGame.update_timers
       (RaycastGame.update_timers (after_shot RaycastGame.init true))) ≤ 3.
Proof.
  assert (Hr : RaycastGame.reachable (after_shot RaycastGame.init true)).
  { eapply RaycastGame.reach_input; [apply RaycastGame.reach_init | apply fire_from_start]. }
  destruct (large_flash_lasts_one_frame _ Hr) as (H1 & _ & H2 & _).
  split; [apply H1; reflexivity | exact H2].
Defined.

(** ** wled_game.py: the wall strips of [render] *)

Lemma mod_2_cases (z : Z) : z `mod` 2 = 0 ∨ z `mod` 2 = 1.
Proof. pose proof (Z.mod_pos_bound z 2 ltac:(lia)). lia. Qed.

Lemma cast_ray_result self angle d t :
  RaycastGame.cast_ray self angle = Some (d, t) →
  (0 < d <= 100)%R ∧ (t = 0 ∨ t = 1).
Proof.
  intros E. destruct (cast_ray_spec self angle) as [(k & (Hk & _) & E') | [_ E']];
    rewrite E in E'; inversion E'; subst.
  - rewrite distance_after_steps. pose proof (hit_distance_bounds k Hk).
    split; [lra|].
    apply mod_2_cases.
  - split; [lra | left; reflexivity].
Qed.

Lemma sqrt_3_lower : (1.7 <= sqrt 3)%R.
Proof.
  rewrite <- (sqrt_square 1.7) by lra. apply sqrt_le_1_alt. lra.
Qed.

(** The rays of the 320 columns sweep from 30 degrees left of the heading to
    just under 30 degrees right of it. *)
Lemma ray_offset_bounds self i :
  0 ≤ i < GAME_WIDTH → (- (PI / 6) <= ray_offset self i < PI / 6)%R.
Proof.
  intros [H0 H1]. unfold ray_offset, RaycastGame.ray_angle, RaycastGame.fov, GAME_WIDTH in *.
  apply IZR_le in H0. apply IZR_lt in H1. pose proof PI_RGT_0.
  replace (RaycastGame.player_angle self - PI / 3 / 2 + IZR i / 320 * (PI / 3)
           - RaycastGame.player_angle self)%R
    with (PI / 3 * (IZR i / 320 - 1 / 2))%R by field.
  split; nra.
Qed.

Lemma cos_within_PI6 (x : R) :
  (- (PI / 6) <= x <= PI / 6)%R → (sqrt 3 / 2 <= cos x <= 1)%R.
Proof.
  intros [H1 H2]. pose proof PI_RGT_0. split; [|apply COS_bound].
  rewrite <- cos_PI6. destruct (Rle_dec 0 x) as [Hx|Hx].
  - apply cos_decr_1; lra.
  - rewrite <- (cos_neg x). apply cos_decr_1; lra.
Qed.

(** X10: for each of the 320 columns the fisheye factor
    [cos(ray_angle - player_angle)] lies between [sqrt 3 / 2] and 1, so the
    corrected distance is never longer than the distance [cast_ray] returned
    and never shorter than 0.85 times it. *)
Theorem fisheye_factor_bounds (self : RaycastGame.game) (i : Z) :
  0 ≤ i < GAME_WIDTH →
  (sqrt 3 / 2 <= cos (RaycastGame.ray_angle self i - RaycastGame.player_angle self) <= 1)%R ∧
  ∃ d t corrected,
    RaycastGame.cast_ray self (RaycastGame.ray_angle self i) = Some (d, t) ∧
    RaycastGame.corrected_distance self i = Some corrected ∧
    (0.85 * d <= corrected <= d)%R.
Proof.
  intros Hi. pose proof (ray_offset_bounds self i Hi) as Hoff. unfold ray_offset in Hoff.
  assert (Hcos : (sqrt 3 / 2 <= cos (RaycastGame.ray_angle self i
                                     - RaycastGame.player_angle self) <= 1)%R)
    by (apply cos_within_PI6; lra).
  split; [exact Hcos|].
  destruct (cast_ray_total self (RaycastGame.ray_angle self i)) as (d & t & E).
  exists d, t, (d * cos (RaycastGame.ray_angle self i - RaycastGame.player_angle self))%R.
  split; [exact E|]. split.
  - unfold RaycastGame.corrected_distance. rewrite E. reflexivity.
  - pose proof (cast_ray_result _ _ _ _ E) as [Hd _]. pose proof sqrt_3_lower. nra.
Qed.

(** X10 on the leftmost column of the first frame. *)
Lemma fisheye_factor_leftmost_column :
  (sqrt 3 / 2 <= cos (RaycastGame.ray_angle RaycastGame.init 0
                      - RaycastGame.player_angle RaycastGame.init) <= 1)%R.
Proof.
  apply (fisheye_factor_bounds RaycastGame.init 0). unfold GAME_WIDTH. lia.
Defined.

Lemma shade_of_bounds (dist : R) : (0 <= RaycastGame.shade_of dist <= 1)%R.
Proof.
  unfold RaycastGame.shade_of. split; [apply Rmax_l|].
  apply Rmax_lub; [lra | apply Rmin_l].
Qed.

Lemma int_scaled_channel (c : Z) (shade : R) :
  0 ≤ c → (0 <= shade <= 1)%R → 0 ≤ Py.int (IZR c * shade) ≤ c.
Proof.
  intros Hc Hs. assert (0 ≤ Py.int (IZR c * shade) < c + 1); [|lia].
  apply IZR_le in Hc as Hc'. apply int_range; [lia|]. rewrite plus_IZR. nra.
Qed.

Lemma wall_height_bounds (dist : R) :
  (0.1 < dist)%R → 0 ≤ Py.int (IZR GAME_HEIGHT / dist) < 2000.
Proof.
  intros Hd. apply int_range; [lia|]. unfold GAME_HEIGHT.
  assert (Hq : (200 / dist * dist = 200)%R) by (field; lra).
  split; nra.
Qed.

(** X11: for every state and column the body of the column loop of [render]
    raises nothing ([wall_type] is 0 or 1, a valid index of [wall_colors]).
    A strip it draws has each colour channel between 0 and the channel of the
    brightest wall colour (200, 50, 50), a height of at least 0 and below 2000
    pixels, on a screen 200 high, and is centred on the middle of the screen:
    top and bottom add up to 199 or 200. *)
Theorem wall_strip_is_well_formed (self : RaycastGame.game) (i : Z) :
  ∃ drawn, RaycastGame.render_column self i = Some drawn ∧
    ∀ st, drawn = Some st →
      0 ≤ (RaycastGame.strip_color st).1.1 ≤ 200 ∧
      0 ≤ (RaycastGame.strip_color st).1.2 ≤ 50 ∧
      0 ≤ (RaycastGame.strip_color st).2 ≤ 50 ∧
      RaycastGame.strip_x st = i ∧
      0 ≤ RaycastGame.strip_bottom st - RaycastGame.strip_top st < 2000 ∧
      199 ≤ RaycastGame.strip_top st + RaycastGame.strip_bottom st ≤ 200.
Proof.
  unfold RaycastGame.render_column. cbv zeta.
  destruct (cast_ray_total self (RaycastGame.ray_angle self i)) as (d & t & E).
  rewrite E. cbv beta iota delta [mbind option_bind]. cbn [fst snd].
  destruct (Rlt_dec 0.1 _) as [Hfar|Hnear];
    [|eexists; split; [reflexivity | intros st Hst; discriminate]].
  set (dist := (d * cos (RaycastGame.ray_angle self i - RaycastGame.player_angle self))%R) in *.
  pose proof (shade_of_bounds dist) as Hshade.
  pose proof (wall_height_bounds dist Hfar) as Hh.
  pose proof (Z.div_mod (GAME_HEIGHT - Py.int (IZR GAME_HEIGHT / dist)) 2 ltac:(lia)) as Hdm.
  pose proof (Z.mod_pos_bound (GAME_HEIGHT - Py.int (IZR GAME_HEIGHT / dist)) 2 ltac:(lia)) as Hm.
  destruct (cast_ray_result _ _ _ _ E) as [_ [-> | ->]];
    (eexists; split; [reflexivity|]; intros st Hst; inversion Hst; subst st;
     cbn [RaycastGame.strip_color RaycastGame.strip_x RaycastGame.strip_top
          RaycastGame.strip_bottom fst snd];
     pose proof (int_scaled_channel 200 (RaycastGame.shade_of dist) ltac:(lia) Hshade);
     pose proof (int_scaled_channel 150 (RaycastGame.shade_of dist) ltac:(lia) Hshade);
     pose proof (int_scaled_channel 50 (RaycastGame.shade_of dist) ltac:(lia) Hshade);
     pose proof (int_scaled_channel 30 (RaycastGame.shade_of dist) ltac:(lia) Hshade);
     unfold GAME_HEIGHT in *; repeat split; lia).
Qed.

(** X12: a column whose ray meets no wall within its 200 steps is not left
    to the sky and floor: the sentinel distance 100 passes the guard
    [dist > 0.1], and the loop draws a black strip two pixels high on the
    rows 99 to 101. *)
Theorem missed_ray_draws_a_black_strip (self : RaycastGame.game) (i : Z) :
  0 ≤ i < GAME_WIDTH →
  no_hit self (RaycastGame.ray_angle self i) →
  RaycastGame.render_column self i
  = Some (Some {| RaycastGame.strip_color := (0, 0, 0); RaycastGame.strip_x := i;
                  RaycastGame.strip_top := 99; RaycastGame.strip_bottom := 101 |}).
Proof.
  intros Hi Hmiss. unfold RaycastGame.render_column. cbv zeta.
  rewrite (cast_ray_no_hit _ _ Hmiss).
  cbv beta iota delta [mbind option_bind]. cbn [fst snd].
  pose proof (ray_offset_bounds self i Hi) as Hoff. unfold ray_offset in Hoff.
  assert (Hcos : (sqrt 3 / 2 <= cos (RaycastGame.ray_angle self i
                                     - RaycastGame.player_angle self) <= 1)%R)
    by (apply cos_within_PI6; lra).
  pose proof sqrt_3_lower as H3.
  set (dist := (100 * cos (RaycastGame.ray_angle self i - RaycastGame.player_angle self))%R) in *.
  assert (Hdist : (85 <= dist <= 100)%R) by (unfold dist; lra).
  destruct (Rlt_dec 0.1 dist) as [_|Hn]; [|lra].
  assert (Hheight : Py.int (IZR GAME_HEIGHT / dist) = 2).
  { apply int_eq; [lia|]. unfold GAME_HEIGHT.
    assert (Hq : (200 / dist * dist = 200)%R) by (field; lra).
    split; nra. }
  assert (Hshade : RaycastGame.shade_of dist = 0%R).
  { unfold RaycastGame.shade_of. rewrite Rmin_right by lra. apply Rmax_left. lra. }
  rewrite Hheight, Hshade. change (Py.getitem RaycastGame.wall_colors 0) with (Some (200, 50, 50)).
  cbn [fst snd]. rewrite !Rmult_0_r.
  rewrite (int_eq 0 0) by (try lia; lra). reflexivity.
Qed.

Lemma ray_angle_centre self :
  RaycastGame.ray_angle self 160 = RaycastGame.player_angle self.
Proof. unfold RaycastGame.ray_angle, RaycastGame.fov, GAME_WIDTH. lra. Qed.

(** X12 for the centre column seen from (1.5, 3.5) at heading 0. *)
Lemma black_strip_from_far_state :
  RaycastGame.render_column far_state 160
  = Some (Some {| RaycastGame.strip_color := (0, 0, 0); RaycastGame.strip_x := 160;
                  RaycastGame.strip_top := 99; RaycastGame.strip_bottom := 101 |}).
Proof.
  apply missed_ray_draws_a_black_strip; [unfold GAME_WIDTH; lia|].
  rewrite ray_angle_centre. exact no_hit_from_far_state.
Defined.

(** ** wled_game.py: rays cast from inside the map *)

Lemma step_component_bounds (angle : R) :
  (-0.02 <= cos angle * 0.02 <= 0.02 ∧ -0.02 <= sin angle * 0.02 <= 0.02)%R.
Proof. pose proof (COS_bound angle). pose proof (SIN_bound angle). lra. Qed.

(** As long as no step has hit a wall the marched point is in the interior of
    the map. *)
Lemma ray_point_interior self angle (j : nat) :
  in_open_cell self →
  (∀ i, (1 ≤ i ≤ j)%nat → ¬ hit_at self angle i) →
  (1 <= (ray_point self angle j).1 < 7 ∧ 1 <= (ray_point self angle j).2 < 7)%R.
Proof.
  intros Hopen. induction j as [|j IH]; intros Hfree.
  - destruct (ray_point_0 self angle) as [-> ->]. apply open_cell_position, Hopen.
  - destruct IH as [Hx Hy]; [intros i Hi; apply Hfree; lia|].
    destruct (ray_point_step self angle j) as [Ex Ey].
    destruct (step_component_bounds angle) as [Hc Hs].
    assert (Gx : 0 ≤ Py.int (ray_point self angle (S j)).1 < 8)
      by (apply int_range; [lia | rewrite <- Ex; lra]).
    assert (Gy : 0 ≤ Py.int (ray_point self angle (S j)).2 < 8)
      by (apply int_range; [lia | rewrite <- Ey; lra]).
    destruct (map_cell_in_grid _ _ Gx Gy) as [_ [Hempty | Hwall]].
    + apply open_cell_interior in Hempty as [[Hx1 Hx2] [Hy1 Hy2]].
      pose proof (int_positive_bounds _ Hx1). pose proof (int_positive_bounds _ Hy1).
      apply IZR_le in Hx1, Hx2, Hy1, Hy2. lra.
    + destruct (Hfree (S j)); [lia | exact Hwall].
Qed.

(** X13: a ray cast from a reachable state never leaves the map: every cell
    the marching loop examines, up to and including the first WALL cell, lies
    inside the 8 x 8 grid, and a ray that hits nothing has examined EMPTY
    cells only. The bounds test of the loop never decides the outcome. *)
Theorem rays_stay_inside_the_map (self : RaycastGame.game) (angle : R) (k : nat) :
  RaycastGame.reachable self →
  (1 ≤ k)%nat →
  (∀ j, (1 ≤ j < k)%nat → ¬ hit_at self angle j) →
  0 ≤ (ray_cell self angle k).1 < 8 ∧ 0 ≤ (ray_cell self angle k).2 < 8 ∧
  (cell_at (ray_cell self angle k).1 (ray_cell self angle k).2 = Some WALL ∨
   cell_at (ray_cell self angle k).1 (ray_cell self angle k).2 = Some EMPTY).
Proof.
  intros Hs Hk Hfree. apply reachable_open in Hs.
  destruct k as [|j]; [lia|].
  destruct (ray_point_interior self angle j Hs) as [Hx Hy];
    [intros i Hi; apply Hfree; lia|].
  destruct (ray_point_step self angle j) as [Ex Ey].
  destruct (step_component_bounds angle) as [Hc Hsn].
  assert (Gx : 0 ≤ (ray_cell self angle (S j)).1 < 8)
    by (apply int_range; [lia | rewrite <- Ex; lra]).
  assert (Gy : 0 ≤ (ray_cell self angle (S j)).2 < 8)
    by (apply int_range; [lia | rewrite <- Ey; lra]).
  split; [exact Gx|]. split; [exact Gy|].
  destruct (map_cell_in_grid _ _ Gx Gy) as [_ [H|H]]; [right | left]; exact H.
Qed.

(** X13 for the ray along the heading at the start: its hitting step 175
    examines the cell (7, 3) of the east wall. *)
Lemma first_ray_stays_inside_the_map :
  0 ≤ (ray_cell RaycastGame.init 0 175).1 < 8 ∧
  0 ≤ (ray_cell RaycastGame.init 0 175).2 < 8.
Proof.
  destruct (rays_stay_inside_the_map RaycastGame.init 0 175) as (Hx & Hy & _).
  - apply RaycastGame.reach_init.
  - lia.
  - intros j Hj. apply first_hit_from_start. lia.
  - split; [exact Hx | exact Hy].
Defined.

(** ** wled_game.py: the frame counter and the pacing of the stream *)

(** [send_frame_to_wled] always returns a boolean. *)
Lemma send_frame_result (mapper : Z → Z → Z) (post : payload → outcome response)
    (clk : clock) (self : streamer) (fr : frame) :
  ∃ self' out b,
    WLEDStreamer.send_frame_to_wled mapper post clk self fr = (self', out, Return b).
Proof.
  unfold WLEDStreamer.send_frame_to_wled, WLEDStreamer.send_body.
  destruct (WLEDStreamer.fill_ordered_leds mapper fr) as [leds|]; [|eauto].
  destruct (post (WLEDStreamer.make_payload leds)) as [resp|e]; [|eauto].
  cbv zeta. destruct (Rle_dec 2 (t_check clk - last_fps_print self)); eauto.
Qed.

(** X14: [frame_count] counts the transmissions that were answered, not the
    ones that were accepted: whenever the POST returns a response, whatever
    its status, the counter goes up by one, while the value returned is
    [True] only for status 200; [start_time] is never changed, and
    [last_fps_print] moves to the current time exactly when the rate line is
    printed, which reports the new count. *)
Theorem answered_frames_are_counted (mapper : Z → Z → Z)
    (post : payload → outcome response) (clk : clock) (self : streamer) (fr : frame)
    (leds : list (option led)) (resp : response) :
  WLEDStreamer.fill_ordered_leds mapper fr = Some leds →
  post (WLEDStreamer.make_payload leds) = Return resp →
  ∃ self' printed,
    WLEDStreamer.send_frame_to_wled mapper post clk self fr
    = (self', printed, Return (status_code resp =? 200)) ∧
    frame_count self' = frame_count self + 1 ∧
    start_time self' = start_time self ∧
    ((printed = None ∧ last_fps_print self' = last_fps_print self ∧
      ¬ (2 <= t_check clk - last_fps_print self)%R) ∨
     (∃ fps, printed = Some (frame_count self + 1, fps) ∧
             last_fps_print self' = t_stamp clk ∧
             (2 <= t_check clk - last_fps_print self)%R)).
Proof.
  intros Efill Epost.
  unfold WLEDStreamer.send_frame_to_wled, WLEDStreamer.send_body.
  rewrite Efill, Epost. cbv zeta.
  destruct (Rle_dec 2 (t_check clk - last_fps_print self)) as [Hdue|Hnot].
  - eexists _, _. split; [reflexivity|]. split; [reflexivity|]. split; [reflexivity|].
    right. eexists. split; [reflexivity|]. split; [reflexivity | exact Hdue].
  - eexists _, _. split; [reflexivity|]. split; [reflexivity|]. split; [reflexivity|].
    left. split; [reflexivity|]. split; [reflexivity | exact Hnot].
Qed.

(** X14 for a device that answers status 500 to a solid red frame: the call
    returns [False] and the counter goes from 0 to 1. *)
Lemma rejected_frame_is_counted :
  ∃ self' printed,
    WLEDStreamer.send_frame_to_wled WLEDStreamer.rgb_to_wled_index
      (λ _, Return {| status_code := 500 |})
      {| t_check := 1; t_elapsed := 1; t_stamp := 1 |}
      {| frame_count := 0; start_time := 0; last_fps_print := 0 |}
      (solid_frame 255 0 0)
    = (self', printed, Return false) ∧
    frame_count self' = 1.
Proof.
  destruct (WLEDStreamer.fill_ordered_leds WLEDStreamer.rgb_to_wled_index
              (solid_frame 255 0 0)) as [leds|] eqn:E; [|vm_compute in E; discriminate].
  destruct (answered_frames_are_counted WLEDStreamer.rgb_to_wled_index
              (λ _, Return {| status_code := 500 |})
              {| t_check := 1; t_elapsed := 1; t_stamp := 1 |}
              {| frame_count := 0; start_time := 0; last_fps_print := 0 |}
              (solid_frame 255 0 0) leds {| status_code := 500 |} E eq_refl)
    as (self' & printed & Es & Hc & _).
  exists self', printed. split; [exact Es | exact Hc].
Defined.

(** X15: the stream is paced by attempts, not by successes. A streaming step
    at least 1/20 s after the last one sends the frame and moves
    [last_wled_update] to the current time whether or not the transmission
    succeeded; a step less than 1/20 s after that does nothing: it leaves the
    streamer and [last_wled_update] as they are without posting anything, so a
    failed frame is not retried before the next slot. *)
Theorem stream_is_paced_by_attempts
    (post post' : payload → outcome response) (clk clk' : clock)
    (now later last_wled_update : R) (fr fr' : frame)
    (g g' : RaycastGame.game) (st : streamer) :
  (RaycastGame.wled_frame_time <= now - last_wled_update)%R →
  (later - now < RaycastGame.wled_frame_time)%R →
  ∃ st' sent,
    WLEDStreamer.send_frame_to_wled WLEDStreamer.rgb_to_wled_index post clk st fr
    = (st', sent.1, Return sent.2) ∧
    RaycastGame.stream_step post clk now fr g st last_wled_update = Return (g, st', now) ∧
    RaycastGame.stream_step post' clk' later fr' g' st' now = Return (g', st', now).
Proof.
  intros Hdue Hearly.
  destruct (send_frame_result WLEDStreamer.rgb_to_wled_index post clk st fr)
    as (st' & out & b & E).
  exists st', (out, b). split; [exact E|]. split.
  - unfold RaycastGame.stream_step.
    destruct (Rle_dec RaycastGame.wled_frame_time (now - last_wled_update)); [|contradiction].
    rewrite E. reflexivity.
  - unfold RaycastGame.stream_step.
    destruct (Rle_dec RaycastGame.wled_frame_time (later - now)) as [H|H]; [lra | reflexivity].
Qed.

(** X15 with a device that times out: a step at 1.00 s after a send at 0 s
    attempts the frame, and the step at 1.01 s leaves everything alone. *)
Lemma timed_out_frame_is_not_retried :
  ∃ st',
    RaycastGame.stream_step (λ _, Raise Timeout)
      {| t_check := 1; t_elapsed := 1; t_stamp := 1 |} 1 (solid_frame 255 0 0)
      RaycastGame.init {| frame_count := 0; start_time := 0; last_fps_print := 0 |} 0
    = Return (RaycastGame.init, st', 1%R) ∧
    RaycastGame.stream_step (λ _, Raise Timeout)
      {| t_check := 1; t_elapsed := 1; t_stamp := 1 |} 1.01 (solid_frame 255 0 0)
      RaycastGame.init st' 1
    = Return (RaycastGame.init, st', 1%R).
Proof.
  destruct (stream_is_paced_by_attempts (λ _, Raise Timeout) (λ _, Raise Timeout)
              {| t_check := 1; t_elapsed := 1; t_stamp := 1 |}
              {| t_check := 1; t_elapsed := 1; t_stamp := 1 |}
              1 1.01 0 (solid_frame 255 0 0) (solid_frame 255 0 0)
              RaycastGame.init RaycastGame.init
              {| frame_count := 0; start_time := 0; last_fps_print := 0 |})
    as (st' & _ & _ & E1 & E2).
  - unfold RaycastGame.wled_frame_time. lra.
  - unfold RaycastGame.wled_frame_time. lra.
  - exists st'. split; [exact E1 | exact E2].
Defined.


(** ** test_wled_mapping.py: the letters of the quick test *)

Lemma glyph_drawn_ext font col (C C' : Z → Z → Prop) leds0 leds :
  (∀ x y, C x y ↔ C' x y) →
  glyph_drawn font col C leds0 leds → glyph_drawn font col C' leds0 leds.
Proof.
  intros HC [Hlen H]. split; [exact Hlen|]. intros i.
  destruct (H i) as [[E (x & y & Hc & Hb & Hi)] | [E N]].
  - left. split; [exact E|]. exists x, y. rewrite <- HC. done.
  - right. split; [exact E|]. intros x y Hc. apply N, HC, Hc.
Qed.

(** One execution of the loop body inside the bitmap. *)
Lemma draw_pixel_drawn font col C leds0 leds x y :
  glyph_5x7 font → 0 ≤ col ≤ 11 → length leds0 = 128%nat →
  0 ≤ x < 5 → 0 ≤ y < 7 →
  glyph_drawn font col C leds0 leds →
  ∃ leds', MappingTest.draw_pixel font col y x leds = Some leds' ∧
           glyph_drawn font col (λ x' y', C x' y' ∨ (x' = x ∧ y' = y)) leds0 leds'.
Proof.
  intros [Hrows Hall] Hcol Hlen0 Hx Hy [Hlen H].
  unfold MappingTest.draw_pixel.
  destruct (lookup_lt_is_Some_2 font (Z.to_nat y)) as [row Erow]; [lia|].
  pose proof (proj1 (Forall_lookup _ _) Hall _ _ Erow) as Hcols. simpl in Hcols.
  destruct (lookup_lt_is_Some_2 row (Z.to_nat x)) as [ch Ech]; [lia|].
  assert (Ebit : glyph_bit font y x = Ascii.eqb ch "1").
  { unfold glyph_bit. rewrite getitem_nonneg by lia. rewrite Erow.
    cbv beta iota delta [mbind option_bind]. rewrite getitem_nonneg by lia.
    rewrite Ech. reflexivity. }
  rewrite getitem_nonneg by lia. rewrite Erow.
  cbv beta iota delta [mbind option_bind]. rewrite getitem_nonneg by lia. rewrite Ech.
  cbv beta iota delta [mbind option_bind].
  destruct (Ascii.eqb ch "1") eqn:Echar.
  - cbv zeta. destruct ((y + 1) * 16 + (x + col) <? 128) eqn:Eguard; [|lia].
    rewrite setitem_nonneg by lia. eexists. split; [reflexivity|].
    split; [rewrite length_insert; exact Hlen|]. intros i.
    destruct (decide (Z.to_nat ((y + 1) * 16 + (x + col)) = i)) as [Ei|Hne].
    + left. split; [rewrite <- Ei; apply list_lookup_insert_eq; lia|].
      exists x, y. split; [right; done|]. split; [exact Ebit | exact Ei].
    + rewrite list_lookup_insert_ne by exact Hne.
      destruct (H i) as [[E (x0 & y0 & Hc & Hb & Hi)] | [E N]].
      * left. split; [exact E|]. exists x0, y0. tauto.
      * right. split; [exact E|]. intros x' y' [Hc | [-> ->]] Hb; [apply N; assumption|].
        exact Hne.
  - exists leds. split; [reflexivity|]. split; [exact Hlen|]. intros i.
    destruct (H i) as [[E (x0 & y0 & Hc & Hb & Hi)] | [E N]].
    + left. split; [exact E|]. exists x0, y0. tauto.
    + right. split; [exact E|]. intros x' y' [Hc | [-> ->]] Hb; [apply N; assumption|].
      rewrite Ebit in Hb. discriminate.
Qed.

Lemma draw_glyph_drawn font col leds0 :
  glyph_5x7 font → 0 ≤ col ≤ 11 → length leds0 = 128%nat →
  ∃ leds, MappingTest.draw_glyph font col leds0 = Some leds ∧
          glyph_drawn font col (λ x y, 0 ≤ x < 5 ∧ 0 ≤ y < 7) leds0 leds.
Proof.
  intros Hfont Hcol Hlen0. unfold MappingTest.draw_glyph.
  pose (Row := λ (ys : list Z) (l : list (list Z)),
          glyph_drawn font col (λ x y, y ∈ ys ∧ x ∈ Py.range 5) leds0 l).
  destruct (for_each_total Row
    (λ y, Py.for_each (Py.range 5) (λ x, MappingTest.draw_pixel font col y x))
    (Py.range 7)) with (done := @nil Z) (s := leds0) as (leds & E & HR).
  - intros ys y s Hs Hy. apply elem_of_range in Hy.
    pose (Col := λ (xs : list Z) (l : list (list Z)),
            glyph_drawn font col
              (λ x' y', (y' ∈ ys ∧ x' ∈ Py.range 5) ∨ (y' = y ∧ x' ∈ xs)) leds0 l).
    destruct (for_each_total Col (λ x, MappingTest.draw_pixel font col y x)
      (Py.range 5)) with (done := @nil Z) (s := s) as (s' & E & HC).
    + intros xs x l Hl Hx. apply elem_of_range in Hx.
      destruct (draw_pixel_drawn font col _ leds0 l x y Hfont Hcol Hlen0 Hx Hy Hl)
        as (l' & El & Hl').
      exists l'. split; [exact El|]. unfold Col. eapply glyph_drawn_ext; [|exact Hl'].
      intros x' y'. simpl. rewrite elem_of_app, list_elem_of_singleton. tauto.
    + unfold Col. eapply glyph_drawn_ext; [|exact Hs].
      intros x' y'. simpl. rewrite elem_of_nil. tauto.
    + exists s'. split; [exact E|]. unfold Col in HC. unfold Row.
      eapply glyph_drawn_ext; [|exact HC].
      intros x' y'. simpl. rewrite elem_of_app, list_elem_of_singleton.
      split; [intros [?|[-> ?]]; tauto | intros [[?| ->] ?]; tauto].
  - unfold Row. split; [reflexivity|]. intros i. right. split; [reflexivity|].
    intros x y [Hy _]. apply elem_of_nil in Hy. destruct Hy.
  - exists leds. split; [exact E|]. unfold Row in HR. eapply glyph_drawn_ext; [|exact HR].
    intros x y. simpl. rewrite !elem_of_range. tauto.
Qed.

(** X16: drawing a 5 x 7 bitmap at a column between 0 and 11 on an array of
    128 colours raises nothing, and the guard [led_idx < 128] always passes.
    Under the game's row-major mapper the pixel [(col + x, y + 1)] turns green
    exactly when the bitmap has a ["1"] in row [y], column [x]; every other
    pixel, the whole top row included, keeps its colour. *)
Theorem glyph_is_drawn_below_the_top_row (font : list MappingTest.str) (col : Z)
    (leds0 : list (list Z)) :
  glyph_5x7 font → 0 ≤ col ≤ 11 → length leds0 = 128%nat →
  ∃ leds,
    MappingTest.draw_glyph font col leds0 = Some leds ∧
    length leds = 128%nat ∧
    ∀ px py, 0 ≤ px < 16 → 0 ≤ py < 8 →
      leds !! Z.to_nat (WLEDStreamer.rgb_to_wled_index px py)
      = if decide (col ≤ px < col + 5 ∧ 1 ≤ py ∧ glyph_bit font (py - 1) (px - col) = true)
        then Some green
        else leds0 !! Z.to_nat (WLEDStreamer.rgb_to_wled_index px py).
Proof.
  intros Hfont Hcol Hlen0.
  destruct (draw_glyph_drawn font col leds0 Hfont Hcol Hlen0) as (leds & E & Hlen & H).
  exists leds. split; [exact E|]. split; [congruence|].
  intros px py Hpx Hpy. unfold WLEDStreamer.rgb_to_wled_index, MATRIX_WIDTH.
  destruct (H (Z.to_nat (py * 16 + px))) as [[Eg (x & y & [Hx Hy] & Hb & Hi)] | [Eo N]].
  - assert (x = px - col ∧ y = py - 1) as [-> ->] by lia.
    rewrite decide_True by (split; [lia | split; [lia | exact Hb]]). exact Eg.
  - rewrite Eo. destruct (decide _) as [(Hw & Hrow & Hb)|_]; [|reflexivity].
    destruct (N (px - col) (py - 1)); [lia | exact Hb | f_equal; lia].
Qed.

(** X16 for the letter O of the script, drawn at column 2 on a dark array:
    the pixel (3, 1) under the top of the O is green, its corner (2, 1) and
    the pixel (3, 0) of the top row stay dark. *)
Lemma letter_O_is_drawn :
  ∃ leds,
    MappingTest.draw_glyph MappingTest.FONT_O 2 (replicate 128 black) = Some leds ∧
    leds !! Z.to_nat (WLEDStreamer.rgb_to_wled_index 3 1) = Some green ∧
    leds !! Z.to_nat (WLEDStreamer.rgb_to_wled_index 2 1) = Some black ∧
    leds !! Z.to_nat (WLEDStreamer.rgb_to_wled_index 3 0) = Some black.
Proof.
  destruct (glyph_is_drawn_below_the_top_row MappingTest.FONT_O 2 (replicate 128 black))
    as (leds & E & _ & H).
  - split; [reflexivity|]. vm_compute. repeat constructor.
  - lia.
  - reflexivity.
  - exists leds. split; [exact E|]. split; [|split].
    + rewrite (H 3 1) by lia. reflexivity.
    + rewrite (H 2 1) by lia. reflexivity.
    + rewrite (H 3 0) by lia. reflexivity.
Defined.
